(** * Sharky slot allocator: free-slot bitvector of a shard

    Two variants of the [slots] type of package [sharky] are embedded:
    - [Part000]: the variant with a configured [size], [push]/[pop] and no
      lock (the caller serialises access);
    - [SlotsGo]: the variant of [pkg/sharky/slots.go], guarded by a mutex,
      with [Free]/[Use]/[Next] and growth by [extend].

    The bitvector is a byte slice; bit [k] of byte [i] stands for slot
    [i*8+k]; a set bit means the slot is free.  [head] and [size] are
    [uint32] fields.

    The last part embeds the in-memory key-value store of package
    [inmemstore] ([InMem]): its keys, its store methods over the radix tree,
    and its batches. *)

From Stdlib Require Import ZArith Lia Bool.
From stdpp Require Import base list gmap strings.

Open Scope Z_scope.

(** ** Machine integers and bytes *)

(** Reduction of an integer to [uint32]. *)
Definition wrap32 (z : Z) : Z := z mod 2 ^ 32.

Definition is_uint32 (z : Z) : Prop := 0 <= z < 2 ^ 32.

(** [1 << k] on a byte, for a shift count [k] below 8. *)
Definition bit_mask (k : Z) : Z := Z.shiftl 1 k.

(** [^b] on a byte. *)
Definition byte_not (b : Z) : Z := Z.lxor 255 b.

(** [b |= 1 << k]. *)
Definition set_bit (b k : Z) : Z := Z.lor b (bit_mask k).

(** [b &= ^(1 << k)]. *)
Definition clear_bit (b k : Z) : Z := Z.land b (byte_not (bit_mask k)).

(** [b & (1 << k) > 0]. *)
Definition bit_is_set (b k : Z) : bool := Z.land b (bit_mask k) >? 0.

(** ** The backing store *)

(** Modelled from the spec: the interface [sharkyFile] is not declared in the
    source files at hand.  The spec's PersistentBackingStore offers: read all
    current durable bytes, truncate to zero length, seek to start, write a
    complete byte sequence, flush; each of them may fail with an IOFailure.
    The store is its durable bytes plus a flag telling whether its operations
    fail. *)
Record sharkyFile : Type := mkFile {
  durable : list Z;
  failing : bool
}.

(** [io.ReadAll(f)]: the bytes read and whether an error occurred. *)
Definition ReadAll (f : sharkyFile) : list Z * bool :=
  if failing f then ([], true) else (durable f, false).

(** [f.Truncate(0)]. *)
Definition Truncate0 (f : sharkyFile) : option sharkyFile :=
  if failing f then None else Some (mkFile [] false).

(** [f.Seek(0, 0)]. *)
Definition Seek0 (f : sharkyFile) : option sharkyFile :=
  if failing f then None else Some f.

(** [f.Write(p)], at the start of a truncated store or after earlier writes. *)
Definition Write (p : list Z) (f : sharkyFile) : option sharkyFile :=
  if failing f then None else Some (mkFile (durable f ++ p) false).

(** [f.Sync()]. *)
Definition Sync (f : sharkyFile) : option sharkyFile :=
  if failing f then None else Some f.

(** ** The allocator state *)

Record slots : Type := mkSlots {
  data : list Z;      (* byteslice serving as bitvector *)
  head : Z;           (* the first free slot *)
  size : Z;           (* number of slots *)
  file : sharkyFile   (* file to persist free slots across sessions *)
}.

(** ** Methods as state transformers

    A method runs on the receiver and exits by returning a value, by
    returning an error of the store, or by the runtime panic of an index out
    of range.  The receiver as it is at the exit is always part of the
    result, since the methods update it in place. *)

Inductive exit (A : Type) : Type :=
| Ret (a : A)
| Err
| Panic.

Arguments Ret {A} a.
Arguments Err {A}.
Arguments Panic {A}.

Definition M (A : Type) : Type := slots -> exit A * slots.

Definition ret {A} (a : A) : M A := fun sl => (Ret a, sl).

Definition bind {A B} (c : M A) (k : A -> M B) : M B :=
  fun sl =>
    match c sl with
    | (Ret a, sl') => k a sl'
    | (Err, sl') => (Err, sl')
    | (Panic, sl') => (Panic, sl')
    end.

Notation "x <- c ;; k" := (bind c (fun x => k))
  (at level 100, c at next level, right associativity).
Notation "c ;; k" := (bind c (fun _ => k))
  (at level 100, right associativity).

Definition gets {A} (proj : slots -> A) : M A := fun sl => (Ret (proj sl), sl).

Definition set_data (d : list Z) : M unit :=
  fun sl => (Ret tt, mkSlots d (head sl) (size sl) (file sl)).

Definition set_head (h : Z) : M unit :=
  fun sl => (Ret tt, mkSlots (data sl) h (size sl) (file sl)).

Definition set_size (n : Z) : M unit :=
  fun sl => (Ret tt, mkSlots (data sl) (head sl) n (file sl)).

(** [sl.data[i]] as a value: panics when [i] is out of range. *)
Definition index (i : Z) : M Z :=
  fun sl =>
    match data sl !! Z.to_nat i with
    | Some b => (Ret b, sl)
    | None => (Panic, sl)
    end.

(** [sl.data[i] = b]: panics when [i] is out of range. *)
Definition store (i : Z) (b : Z) : M unit :=
  fun sl =>
    match data sl !! Z.to_nat i with
    | Some _ => (Ret tt, mkSlots (<[Z.to_nat i := b]> (data sl)) (head sl) (size sl) (file sl))
    | None => (Panic, sl)
    end.

(** [sl.data = append(sl.data, b)]. *)
Definition append (b : Z) : M unit :=
  fun sl => (Ret tt, mkSlots (data sl ++ [b]) (head sl) (size sl) (file sl)).

(** An operation of the store on [sl.file]; its failure is returned. *)
Definition on_file (op : sharkyFile -> option sharkyFile) : M unit :=
  fun sl =>
    match op (file sl) with
    | Some f' => (Ret tt, mkSlots (data sl) (head sl) (size sl) f')
    | None => (Err, sl)
    end.

(** The loop shared by both variants of [next]:
    [for i := sl.head; i < sl.size; i++ { if sl.data[i/8]&(1<<(i%8)) > 0 { return i } }].
    [n] counts the iterations left, [i] is the loop variable; the caller
    starts it with [n = size - head] (none when [size <= head]), so that
    [i < size] holds exactly while [n] is not zero, and [i++] cannot wrap.
    [Some i] is the early return, [None] the normal end of the loop. *)
Fixpoint scan (n : nat) (i : Z) : M (option Z) :=
  match n with
  | O => ret None
  | S n' =>
      b <- index (i / 8) ;;
      if bit_is_set b (i mod 8) then ret (Some i) else scan n' (i + 1)
  end.

Definition scan_from_head : M (option Z) :=
  fun sl => scan (Z.to_nat (size sl - head sl)) (head sl) sl.

(** ** The variant with a configured size (no lock) *)

Module Part000.

Definition newSlots (f : sharkyFile) (sz : Z) : slots := mkSlots [] 0 sz f.

(** [next] returns the lowest free slot after start. *)
Definition next : M Z :=
  r <- scan_from_head ;;
  match r with
  | Some i => ret i
  | None => gets size
  end.

(** The loop of [load]:
    [for i := len(sl.data) * 8; i < int(sl.size); i += 8 { append 0xff }];
    [n] counts the iterations left. *)
Fixpoint pad (n : nat) : M unit :=
  match n with
  | O => ret tt
  | S n' => append 255 ;; pad n'
  end.

(** Number of iterations of the loop of [load] started at [i] with bound
    [sz]: the least [n] with [sz <= i + 8 * n] (lemma [pad_count_least]). *)
Definition pad_count (i sz : Z) : nat := Z.to_nat ((sz - i + 7) / 8).

(** [load] inits the slots from file, called after init. *)
Definition load : M unit :=
  f <- gets file ;;
  let (tmp, err) := ReadAll f in
  if err then (fun sl => (Err, sl))
  else
    set_data tmp ;;
    sz <- gets size ;;
    pad (pad_count (Z.of_nat (length tmp) * 8) sz) ;;
    h <- next ;;
    set_head h.

(** [save] persists the free slot bitvector on disk (without closing). *)
Definition save : M unit :=
  on_file Truncate0 ;;
  on_file Seek0 ;;
  d <- gets data ;;
  on_file (Write d) ;;
  on_file Sync.

Definition push (h : Z) : M unit :=
  cur <- gets head ;;
  (if h <? cur then set_head h else ret tt) ;;
  b <- index (h / 8) ;;
  store (h / 8) (set_bit b (h mod 8)).

(** [pop] sets the head as used, and finds the next free slot. *)
Definition pop : M unit :=
  h <- gets head ;;
  sz <- gets size ;;
  if sz <=? h then ret tt
  else
    b <- index (h / 8) ;;
    store (h / 8) (clear_bit b (h mod 8)) ;;
    n <- next ;;
    set_head n.

(** States of an allocator built by [newSlots f sz] and a successful [load],
    then driven by any calls; a call may end in any way. *)
Inductive reachable (f : sharkyFile) (sz : Z) : slots -> Prop :=
| reach_load s :
    is_uint32 sz -> load (newSlots f sz) = (Ret tt, s) -> reachable f sz s
| reach_push s h r s' :
    reachable f sz s -> is_uint32 h -> push h s = (r, s') -> reachable f sz s'
| reach_pop s r s' :
    reachable f sz s -> pop s = (r, s') -> reachable f sz s'
| reach_save s r s' :
    reachable f sz s -> save s = (r, s') -> reachable f sz s'.

End Part000.

(** ** The variant of slots.go (one mutex around every exported method) *)

Module SlotsGo.

Definition newSlots (f : sharkyFile) : slots := mkSlots [] 0 0 f.

(** [load] inits the slots from file, called after init.  The bytes read
    are assigned to [sl.data] before the error is looked at. *)
Definition load : M unit :=
  f <- gets file ;;
  let (tmp, err) := ReadAll f in
  set_data tmp ;;
  if err then (fun sl => (Err, sl))
  else set_size (wrap32 (Z.of_nat (length tmp) * 8)).

(** [Save] persists the free slot bitvector on disk (without closing). *)
Definition Save : M unit :=
  on_file Truncate0 ;;
  on_file Seek0 ;;
  d <- gets data ;;
  on_file (Write d) ;;
  on_file Sync.

Definition Free (slot : Z) : M unit :=
  cur <- gets head ;;
  (if slot <? cur then set_head slot else ret tt) ;;
  b <- index (slot / 8) ;;
  store (slot / 8) (set_bit b (slot mod 8)).

(** [Use] sets the slot as used. *)
Definition Use (slot : Z) : M unit :=
  b <- index (slot / 8) ;;
  store (slot / 8) (clear_bit b (slot mod 8)).

(** The loop of [extend]: [for i := 0; i < n; i++ { append 0xff }]. *)
Fixpoint grow (n : nat) : M unit :=
  match n with
  | O => ret tt
  | S n' => append 255 ;; grow n'
  end.

(** [extend] adapts the slots to an extended size shard; extensions are
    bytewise.  [n] is an [int]; [uint32(n) * 8] and the sum wrap. *)
Definition extend (n : Z) : M unit :=
  sz <- gets size ;;
  set_size (wrap32 (sz + wrap32 (wrap32 n * 8))) ;;
  grow (Z.to_nat n).

Definition next : M Z :=
  r <- scan_from_head ;;
  match r with
  | Some i => ret i
  | None =>
      extend 1 ;;
      sz <- gets size ;;
      ret (wrap32 (sz - 8))
  end.

(** [Next] returns the lowest free slot. *)
Definition Next : M Z :=
  h <- next ;;
  set_head h ;;
  gets head.

(** States of an allocator built by [newSlots], optionally loaded with
    success, then driven by any calls; a call may end in any way. *)
Inductive reachable : slots -> Prop :=
| reach_new f : reachable (newSlots f)
| reach_load f s : load (newSlots f) = (Ret tt, s) -> reachable s
| reach_Free s slot r s' :
    reachable s -> is_uint32 slot -> Free slot s = (r, s') -> reachable s'
| reach_Use s slot r s' :
    reachable s -> is_uint32 slot -> Use slot s = (r, s') -> reachable s'
| reach_Next s r s' :
    reachable s -> Next s = (r, s') -> reachable s'
| reach_extend s n r s' :
    reachable s -> 0 <= n -> extend n s = (r, s') -> reachable s'
| reach_Save s r s' :
    reachable s -> Save s = (r, s') -> reachable s'.

End SlotsGo.

(** ** Reading the bitvector *)

(** Slot [i] is free: its byte exists and its bit is set. *)
Definition slot_free (d : list Z) (i : Z) : bool :=
  match d !! Z.to_nat (i / 8) with
  | Some b => bit_is_set b (i mod 8)
  | None => false
  end.

(** Slot [i] is used: its byte exists and its bit is clear. *)
Definition slot_used (d : list Z) (i : Z) : bool :=
  match d !! Z.to_nat (i / 8) with
  | Some b => negb (bit_is_set b (i mod 8))
  | None => false
  end.

(** Number of slots the byte slice has room for. *)
Definition bits (d : list Z) : Z := 8 * Z.of_nat (length d).

(** Every slot below the head is used. *)
Definition below_head_used (s : slots) : Prop :=
  forall i, 0 <= i < head s -> slot_used (data s) i = true.

(** [h] is the lowest free slot below the size. *)
Definition lowest_free (s : slots) (h : Z) : Prop :=
  0 <= h < size s /\ slot_free (data s) h = true /\
  forall i, 0 <= i < h -> slot_used (data s) i = true.

(** No slot below the size is free. *)
Definition none_free (s : slots) : Prop :=
  forall i, 0 <= i < size s -> slot_used (data s) i = true.

Definition uint32_fields (s : slots) : Prop :=
  is_uint32 (head s) /\ is_uint32 (size s).

(** Head after a release of [h]: lowered to [h] when [h] is below it. *)
Definition lowered (h cur : Z) : Z := if h <? cur then h else cur.

(** ** Shape of the reachable states *)

(** Variant with a configured size: the size is the one given to
    [newSlots], the head does not exceed it, and the byte slice is the
    loaded file padded by the loop of [load]. *)
Definition shape000 (f : sharkyFile) (sz : Z) (s : slots) : Prop :=
  size s = sz /\ is_uint32 sz /\ 0 <= head s <= size s /\
  length (data s)
  = (length (durable f) + Part000.pad_count (Z.of_nat (length (durable f)) * 8) sz)%nat.

(** Variant of slots.go: the size is the number of bits of the byte slice,
    as a [uint32], and the head points into the byte slice or just after. *)
Definition shapeGo (s : slots) : Prop :=
  0 <= head s <= bits (data s) /\ is_uint32 (head s) /\
  size s = wrap32 (bits (data s)).

(** ** Bytes *)

(** The values of a byte. *)
Definition is_byte (b : Z) : Prop := 0 <= b < 256.

(** A byte slice read from a store holds bytes. *)
Definition bytes_ok (d : list Z) : Prop := Forall is_byte d.

(** ** The in-memory store *)

Module InMem.

(** [strings.Join(elems, sep)]. *)
Fixpoint Join (elems : list string) (sep : string) : string :=
  match elems with
  | [] => ""
  | a :: rest =>
      match rest with
      | [] => a
      | _ :: _ => a +:+ sep +:+ Join rest sep
      end
  end.

(** What is left of [s] after the prefix [p], when [s] starts with [p]. *)
Fixpoint cut_prefix (p s : string) : option string :=
  match p with
  | EmptyString => Some s
  | String c p' =>
      match s with
      | EmptyString => None
      | String d s' => if Ascii.eqb c d then cut_prefix p' s' else None
      end
  end.

(** [strings.HasPrefix(s, prefix)]. *)
Definition HasPrefix (s prefix : string) : bool :=
  match cut_prefix prefix s with
  | Some _ => true
  | None => false
  end.

(** [strings.TrimPrefix(s, prefix)]: [s] without the prefix when it has it,
    [s] itself otherwise. *)
Definition TrimPrefix (s prefix : string) : string :=
  match cut_prefix prefix s with
  | Some rest => rest
  | None => s
  end.

(** The interfaces [storage.Key] and [storage.Item] are declared outside the
    source files at hand.  A key is what its methods [Namespace] and [ID]
    return; an item is a key and what its method [Marshal] returns, [None]
    standing for an error. *)
Record Key : Type := mkKey {
  Namespace : string;
  ID : string
}.

Record Item : Type := mkItem {
  key_of : Key;
  Marshal : option (list Z)
}.

Inductive error : Type :=
| ErrNotFound       (* storage.ErrNotFound *)
| ErrMarshal        (* "failed marshaling item" *)
| ErrContext.       (* ctx.Err() of a context that is done *)

Definition separator : string := "/".

Definition getKeyString (i : Key) : string :=
  Join [Namespace i; ID i] separator.

Definition idFromKey (pfx key : string) : string :=
  TrimPrefix key (pfx +:+ separator).

(** The store is a radix tree, "a mutable radix which gives O(k) lookup and
    ordered iteration": a finite map from key strings to the marshalled
    bytes. *)
Abbreviation Store := (gmap string (list Z)).

(** [Has]: whether the key is in the tree (its error result is always nil). *)
Definition Has (k : Key) (st : Store) : bool :=
  match st !! getKeyString k with
  | Some _ => true
  | None => false
  end.

(** [GetSize]: the length of the stored bytes, or [ErrNotFound]. *)
Definition GetSize (k : Key) (st : Store) : error + nat :=
  match st !! getKeyString k with
  | Some val => inr (length val)
  | None => inl ErrNotFound
  end.

(** [Put]: marshal, then insert under the key string; the error returned
    and the store left. *)
Definition Put (i : Item) (st : Store) : option error * Store :=
  match Marshal i with
  | None => (Some ErrMarshal, st)
  | Some val => (None, <[getKeyString (key_of i) := val]> st)
  end.

(** [Delete]: remove the key string; [ErrNotFound] when nothing was
    deleted. *)
Definition Delete (i : Item) (st : Store) : option error * Store :=
  match st !! getKeyString (key_of i) with
  | Some _ => (None, delete (getKeyString (key_of i)) st)
  | None => (Some ErrNotFound, st)
  end.

(** [Count]: [WalkPrefix(k.Namespace(), ...)] visits every entry whose key
    string starts with the namespace, and the callback counts it and never
    stops the walk. *)
Definition Count (k : Key) (st : Store) : nat :=
  length (filter (fun kv => HasPrefix kv.1 (Namespace k) = true) (map_to_list st)).

(** A batch: the error of its context (none while the context is live), its
    items, and the store it commits to. *)
Record Batch : Type := mkBatch {
  ctx_err : option error;
  items : list Item;
  store_of : Store
}.

(** Exit of a batch method: it returns nil, returns an error, or panics. *)
Inductive result (A : Type) : Type :=
| Ok (a : A)
| Failed (e : error)
| Crash.

Arguments Ok {A} a.
Arguments Failed {A} e.
Arguments Crash {A}.

(** Method [Put] of [Batch]. *)
Definition Batch_Put (item : Item) (b : Batch) : result Batch :=
  match ctx_err b with
  | Some e => Failed e
  | None => Ok (mkBatch (ctx_err b) (items b ++ [item]) (store_of b))
  end.

(** [append(i.items[:index], i.items[index+1:]...)] on the array [arr]
    behind a slice of length [m]: the elements after [index] move down by
    one inside the same array, the element at [m - 1] stays where it is. *)
Definition remove_at (index : nat) (arr : list Item) (m : nat) : list Item :=
  take index arr ++ take (m - 1 - index) (drop (S index) arr) ++ drop (m - 1) arr.

(** The loop of method [Delete] of [Batch]:
    [for index, rem := range i.items { if rem.ID() == key.ID() { i.items = append(...) } }].
    The range runs over the slice as it was at the start ([n] iterations
    left, over the same array [arr]), while [i.items], of length [m], is
    shortened in place; [i.items[index+1:]] panics when [index + 1]
    exceeds [m]. *)
Fixpoint delete_loop (n : nat) (index : nat) (id : string)
         (arr : list Item) (m : nat) : option (list Item * nat) :=
  match n with
  | O => Some (arr, m)
  | S n' =>
      match arr !! index with
      | None => None
      | Some rem =>
          if String.eqb (ID (key_of rem)) id then
            if (index <? m)%nat
            then delete_loop n' (S index) id (remove_at index arr m) (m - 1)
            else None
          else delete_loop n' (S index) id arr m
      end
  end.

(** Method [Delete] of [Batch]. *)
Definition Batch_Delete (key : Key) (b : Batch) : result Batch :=
  match ctx_err b with
  | Some e => Failed e
  | None =>
      match delete_loop (length (items b)) 0 (ID key) (items b) (length (items b)) with
      | Some (arr, m) => Ok (mkBatch (ctx_err b) (take m arr) (store_of b))
      | None => Crash
      end
  end.

(** The loop of method [Commit] of [Batch]: [i.store.Put(item)] for every item, the
    error of [Put] being dropped. *)
Fixpoint commit_loop (l : list Item) (st : Store) : Store :=
  match l with
  | [] => st
  | item :: rest => commit_loop rest (Put item st).2
  end.

(** Method [Commit] of [Batch]. *)
Definition Batch_Commit (b : Batch) : result Batch :=
  match ctx_err b with
  | Some e => Failed e
  | None => Ok (mkBatch (ctx_err b) (items b) (commit_loop (items b) (store_of b)))
  end.

(** The character of the separator: [separator] is [String sep_char ""]. *)
Definition sep_char : Ascii.ascii := Ascii.ascii_of_nat 47.

(** A string without the separator. *)
Fixpoint sep_free (s : string) : bool :=
  match s with
  | EmptyString => true
  | String c s' => negb (Ascii.eqb c sep_char) && sep_free s'
  end.

(** An item of the batch has the id [id]. *)
Definition has_id (id : string) (it : Item) : Prop := ID (key_of it) = id.

(** Items for the examples. *)
Definition chunk_a : Item := mkItem (mkKey "chunk" "a") (Some [1; 2; 3]).
Definition chunk_b : Item := mkItem (mkKey "chunk" "b") (Some [4]).
Definition pin_a : Item := mkItem (mkKey "pin" "a") (Some []).
Definition broken_c : Item := mkItem (mkKey "chunk" "c") None.

End InMem.

(** ** Concrete stores and states *)

Definition empty_file : sharkyFile := mkFile [] false.

(** A store holding two bytes, all sixteen slots used. *)
Definition used16_file : sharkyFile := mkFile [0; 0] false.

(** A store holding one byte: slot 0 used, slots 1 to 7 free. *)
Definition one_used_file : sharkyFile := mkFile [254] false.

(** [Part000]: sixteen slots, the first three taken by [pop]. *)
Definition three_taken : slots := mkSlots [248; 255] 3 16 empty_file.

(** [Part000]: the two bytes of [used16_file] loaded with size 8. *)
Definition oversized : slots := mkSlots [0; 0] 8 8 used16_file.

(** [SlotsGo]: [one_used_file] loaded. *)
Definition one_used : slots := mkSlots [254] 0 8 one_used_file.

(** A store of [2^29 - 1] bytes, every slot used: [2^32 - 8] slots. *)
Definition full_file : sharkyFile :=
  mkFile (replicate (Z.to_nat 536870911) 0) false.

(** [SlotsGo]: [full_file] loaded. *)
Definition full : slots :=
  mkSlots (replicate (Z.to_nat 536870911) 0) 0 4294967288 full_file.

(** Unfolding of the monadic plumbing. *)
Ltac run := unfold bind, gets, ret, set_head, set_data, set_size, index, store, append, on_file; simpl.

(** ** Concrete runs *)

Example load_empty_16 :
  Part000.load (Part000.newSlots empty_file 16)
  = (Ret tt, mkSlots [255; 255] 0 16 empty_file).
Proof. reflexivity. Qed.

Example three_pops :
  (Part000.pop ;; Part000.pop ;; Part000.pop) (mkSlots [255; 255] 0 16 empty_file)
  = (Ret tt, mkSlots [248; 255] 3 16 empty_file).
Proof. reflexivity. Qed.

Example push_then_pop :
  (Part000.push 1 ;; h <- gets head ;; Part000.pop ;; ret h)
    (mkSlots [248; 255] 3 16 empty_file)
  = (Ret 1, mkSlots [248; 255] 3 16 empty_file).
Proof. reflexivity. Qed.

Example next_grows :
  SlotsGo.Next (mkSlots [0] 0 8 empty_file)
  = (Ret 8, mkSlots [0; 255] 8 16 empty_file).
Proof. reflexivity. Qed.

(** ** Bits of a byte *)

Lemma bit_is_set_testbit b k : 0 <= k -> bit_is_set b k = Z.testbit b k.
Proof.
  intros Hk. unfold bit_is_set, bit_mask.
  rewrite Z.shiftl_1_l.
  assert (E : Z.land b (2 ^ k) = if Z.testbit b k then 2 ^ k else 0).
  { apply Z.bits_inj'. intros n Hn.
    rewrite Z.land_spec, Z.pow2_bits_eqb by lia.
    destruct (Z.eqb_spec k n) as [->|Hne].
    - destruct (Z.testbit b n) eqn:E; rewrite ?E, ?Z.pow2_bits_eqb, ?Z.eqb_refl, ?Z.bits_0 by lia; reflexivity.
    - rewrite andb_false_r.
      destruct (Z.testbit b k); rewrite ?Z.pow2_bits_eqb, ?Z.bits_0 by lia; [|reflexivity].
      symmetry. apply Z.eqb_neq. exact Hne. }
  rewrite E. destruct (Z.testbit b k).
  - apply Z.gtb_lt. apply Z.pow_pos_nonneg; lia.
  - reflexivity.
Qed.

Lemma testbit_set_bit b k j :
  0 <= k -> 0 <= j ->
  Z.testbit (set_bit b k) j = if j =? k then true else Z.testbit b j.
Proof.
  intros Hk Hj. unfold set_bit, bit_mask.
  rewrite Z.shiftl_1_l, Z.lor_spec, Z.pow2_bits_eqb by lia.
  rewrite (Z.eqb_sym k j). destruct (j =? k); [apply orb_true_r | apply orb_false_r].
Qed.

Lemma testbit_clear_bit b k j :
  0 <= k -> 0 <= j < 8 ->
  Z.testbit (clear_bit b k) j = if j =? k then false else Z.testbit b j.
Proof.
  intros Hk Hj. unfold clear_bit, byte_not, bit_mask.
  rewrite Z.shiftl_1_l, Z.land_spec, Z.lxor_spec, Z.pow2_bits_eqb by lia.
  assert (E : Z.testbit 255 j = true).
  { assert (C : j = 0 \/ j = 1 \/ j = 2 \/ j = 3 \/ j = 4 \/ j = 5 \/ j = 6 \/ j = 7) by lia.
    destruct C as [->|[->|[->|[->|[->|[->|[->| ->]]]]]]]; reflexivity. }
  rewrite E, (Z.eqb_sym k j). destruct (j =? k); simpl.
  - apply andb_false_r.
  - apply andb_true_r.
Qed.

Lemma set_bit_already b k : 0 <= k -> Z.testbit b k = true -> set_bit b k = b.
Proof.
  intros Hk Hb. apply Z.bits_inj'. intros n Hn.
  rewrite testbit_set_bit by lia.
  destruct (Z.eqb_spec n k) as [->|]; congruence.
Qed.

Lemma set_bit_twice b k : 0 <= k -> set_bit (set_bit b k) k = set_bit b k.
Proof.
  intros Hk. apply set_bit_already; [exact Hk|].
  rewrite testbit_set_bit, Z.eqb_refl by lia. reflexivity.
Qed.

(** ** Slots of a byte slice *)

Lemma slot_coords i j :
  i / 8 = j / 8 -> i mod 8 = j mod 8 -> i = j.
Proof.
  intros Hd Hm.
  rewrite (Z.div_mod i 8), (Z.div_mod j 8) by lia. congruence.
Qed.

Lemma slot_used_not_free d i : slot_used d i = true -> slot_free d i = false.
Proof.
  unfold slot_used, slot_free. destruct (d !! Z.to_nat (i / 8)); [|discriminate].
  intros H. apply negb_true_iff. exact H.
Qed.

Lemma slot_used_in_range d i : 0 <= i -> slot_used d i = true -> i < bits d.
Proof.
  unfold slot_used, bits. intros Hi H.
  destruct (d !! Z.to_nat (i / 8)) eqn:E; [|discriminate].
  apply lookup_lt_Some in E.
  assert (i / 8 < Z.of_nat (length d)) by lia.
  Z.div_mod_to_equations. lia.
Qed.

Lemma lookup_byte_in_range (d : list Z) i :
  0 <= i < bits d -> is_Some (d !! Z.to_nat (i / 8)).
Proof.
  unfold bits. intros Hi. apply lookup_lt_is_Some.
  assert (i / 8 < Z.of_nat (length d)) by (Z.div_mod_to_equations; lia).
  assert (0 <= i / 8) by (Z.div_mod_to_equations; lia).
  lia.
Qed.

Lemma lookup_byte_out_of_range (d : list Z) i :
  bits d <= i -> d !! Z.to_nat (i / 8) = None.
Proof.
  unfold bits. intros Hi. apply lookup_ge_None.
  assert (Z.of_nat (length d) <= i / 8) by (Z.div_mod_to_equations; lia).
  lia.
Qed.

Lemma slot_used_app d e i :
  slot_used d i = true -> slot_used (d ++ e) i = true.
Proof.
  unfold slot_used. destruct (d !! Z.to_nat (i / 8)) eqn:E; [|discriminate].
  rewrite (lookup_app_l_Some _ _ _ _ E). trivial.
Qed.

(** Writing a byte with the bit of slot [h] set changes the state of slot
    [h] only. *)
Lemma slot_free_set (d : list Z) h b i :
  0 <= h -> 0 <= i ->
  d !! Z.to_nat (h / 8) = Some b ->
  slot_free (<[Z.to_nat (h / 8) := set_bit b (h mod 8)]> d) i
  = if i =? h then true else slot_free d i.
Proof.
  intros Hh Hi Hb. unfold slot_free.
  assert (Hlt := lookup_lt_Some _ _ _ Hb).
  assert (0 <= h mod 8 < 8) by (apply Z.mod_pos_bound; lia).
  assert (0 <= i mod 8 < 8) by (apply Z.mod_pos_bound; lia).
  destruct (decide (Z.to_nat (i / 8) = Z.to_nat (h / 8))) as [Heq|Hne].
  - rewrite Heq, list_lookup_insert_eq, Hb by exact Hlt.
    rewrite !bit_is_set_testbit, testbit_set_bit by lia.
    assert (i / 8 = h / 8) by (Z.div_mod_to_equations; lia).
    destruct (Z.eqb_spec (i mod 8) (h mod 8)) as [Hm|Hm];
      destruct (Z.eqb_spec i h) as [Hih|Hih]; try reflexivity.
    + exfalso. apply Hih. apply slot_coords; assumption.
    + exfalso. apply Hm. congruence.
  - rewrite list_lookup_insert_ne by congruence.
    destruct (Z.eqb_spec i h) as [Hih|Hih]; [|reflexivity].
    exfalso. apply Hne. congruence.
Qed.

(** Writing a byte with the bit of slot [h] cleared changes the state of
    slot [h] only. *)
Lemma slot_free_clear (d : list Z) h b i :
  0 <= h -> 0 <= i ->
  d !! Z.to_nat (h / 8) = Some b ->
  slot_free (<[Z.to_nat (h / 8) := clear_bit b (h mod 8)]> d) i
  = if i =? h then false else slot_free d i.
Proof.
  intros Hh Hi Hb. unfold slot_free.
  assert (Hlt := lookup_lt_Some _ _ _ Hb).
  assert (0 <= h mod 8 < 8) by (apply Z.mod_pos_bound; lia).
  assert (0 <= i mod 8 < 8) by (apply Z.mod_pos_bound; lia).
  destruct (decide (Z.to_nat (i / 8) = Z.to_nat (h / 8))) as [Heq|Hne].
  - rewrite Heq, list_lookup_insert_eq, Hb by exact Hlt.
    rewrite !bit_is_set_testbit, testbit_clear_bit by lia.
    assert (i / 8 = h / 8) by (Z.div_mod_to_equations; lia).
    destruct (Z.eqb_spec (i mod 8) (h mod 8)) as [Hm|Hm];
      destruct (Z.eqb_spec i h) as [Hih|Hih]; try reflexivity.
    + exfalso. apply Hih. apply slot_coords; assumption.
    + exfalso. apply Hm. congruence.
  - rewrite list_lookup_insert_ne by congruence.
    destruct (Z.eqb_spec i h) as [Hih|Hih]; [|reflexivity].
    exfalso. apply Hne. congruence.
Qed.

(** A write to an existing byte keeps every byte in place, so a slot is
    used after it exactly when it is not free. *)
Lemma slot_used_insert (d : list Z) n v i :
  slot_used (<[n := v]> d) i
  = match d !! Z.to_nat (i / 8) with
    | Some _ => negb (slot_free (<[n := v]> d) i)
    | None => false
    end.
Proof.
  unfold slot_used, slot_free.
  destruct (d !! Z.to_nat (i / 8)) eqn:E.
  - assert (Hlt := lookup_lt_Some _ _ _ E).
    destruct (decide (n = Z.to_nat (i / 8))) as [->|Hne].
    + rewrite list_lookup_insert_eq by exact Hlt. reflexivity.
    + rewrite list_lookup_insert_ne, E by exact Hne. reflexivity.
  - assert (Hge := proj1 (lookup_ge_None _ _) E).
    rewrite (proj2 (lookup_ge_None _ _)); [reflexivity|].
    rewrite length_insert. exact Hge.
Qed.

Lemma slot_used_set (d : list Z) h b i :
  0 <= h -> 0 <= i -> i <> h ->
  d !! Z.to_nat (h / 8) = Some b ->
  slot_used (<[Z.to_nat (h / 8) := set_bit b (h mod 8)]> d) i = slot_used d i.
Proof.
  intros Hh Hi Hne Hb. rewrite slot_used_insert, slot_free_set by assumption.
  destruct (Z.eqb_spec i h); [contradiction|].
  unfold slot_used, slot_free. destruct (d !! Z.to_nat (i / 8)); reflexivity.
Qed.

Lemma slot_used_clear (d : list Z) h b i :
  0 <= h -> 0 <= i ->
  d !! Z.to_nat (h / 8) = Some b ->
  slot_used (<[Z.to_nat (h / 8) := clear_bit b (h mod 8)]> d) i
  = if i =? h then true else slot_used d i.
Proof.
  intros Hh Hi Hb. rewrite slot_used_insert, slot_free_clear by assumption.
  destruct (Z.eqb_spec i h) as [->|Hne].
  - rewrite Hb. reflexivity.
  - unfold slot_used, slot_free. destruct (d !! Z.to_nat (i / 8)); reflexivity.
Qed.

(** ** What each method computes *)

Lemma push_eq h s :
  Part000.push h s =
  match data s !! Z.to_nat (h / 8) with
  | Some b =>
      (Ret tt, mkSlots (<[Z.to_nat (h / 8) := set_bit b (h mod 8)]> (data s))
                       (lowered h (head s)) (size s) (file s))
  | None => (Panic, mkSlots (data s) (lowered h (head s)) (size s) (file s))
  end.
Proof.
  unfold Part000.push, lowered. run.
  destruct (h <? head s); simpl; destruct (data s !! Z.to_nat (h / 8)) eqn:E;
    simpl; rewrite ?E; try reflexivity; destruct s; reflexivity.
Qed.

Lemma Free_push slot : SlotsGo.Free slot = Part000.push slot.
Proof. reflexivity. Qed.

Lemma Save_save : SlotsGo.Save = Part000.save.
Proof. reflexivity. Qed.

Lemma Use_eq slot s :
  SlotsGo.Use slot s =
  match data s !! Z.to_nat (slot / 8) with
  | Some b =>
      (Ret tt, mkSlots (<[Z.to_nat (slot / 8) := clear_bit b (slot mod 8)]> (data s))
                       (head s) (size s) (file s))
  | None => (Panic, s)
  end.
Proof.
  unfold SlotsGo.Use. run.
  destruct (data s !! Z.to_nat (slot / 8)) eqn:E; simpl; rewrite ?E; reflexivity.
Qed.

Lemma save_eq s :
  Part000.save s =
  if failing (file s) then (Err, s)
  else (Ret tt, mkSlots (data s) (head s) (size s) (mkFile (data s) false)).
Proof.
  unfold Part000.save, Truncate0, Seek0, Write, Sync. run.
  destruct (failing (file s)); reflexivity.
Qed.

(** The count given to [scan] is the number of iterations of the loop: it
    is zero exactly when the loop condition [i < size] fails, and one more
    than the count for [i + 1] when it holds. *)
Lemma scan_count_zero i sz : Z.to_nat (sz - i) = 0%nat <-> ~ i < sz.
Proof. lia. Qed.

Lemma scan_count_succ i sz :
  i < sz -> Z.to_nat (sz - i) = S (Z.to_nat (sz - (i + 1))).
Proof. lia. Qed.

(** The loop of [next] leaves the receiver as it is; it ends early at the
    first free slot, normally when every slot it went through is used, and
    panics when a slot it reaches has no byte. *)
Lemma scan_spec n : forall i s,
  0 <= i ->
  match scan n i s with
  | (Ret (Some j), s') =>
      s' = s /\ i <= j < i + Z.of_nat n /\ slot_free (data s) j = true /\
      forall k, i <= k < j -> slot_used (data s) k = true
  | (Ret None, s') =>
      s' = s /\ forall k, i <= k < i + Z.of_nat n -> slot_used (data s) k = true
  | (Panic, s') =>
      s' = s /\ exists k, i <= k < i + Z.of_nat n /\ data s !! Z.to_nat (k / 8) = None
  | (Err, _) => False
  end.
Proof.
  induction n as [|n IH]; intros i s Hi; simpl.
  - split; [reflexivity|]. intros k Hk. lia.
  - run. destruct (data s !! Z.to_nat (i / 8)) as [b|] eqn:E.
    + destruct (bit_is_set b (i mod 8)) eqn:Hb.
      * split; [reflexivity|]. split; [lia|]. split.
        -- unfold slot_free. rewrite E. exact Hb.
        -- intros k Hk. lia.
      * specialize (IH (i + 1) s ltac:(lia)).
        assert (Hu : slot_used (data s) i = true).
        { unfold slot_used. rewrite E, Hb. reflexivity. }
        destruct (scan n (i + 1) s) as [[[j|]| |] s'].
        -- destruct IH as (-> & Hj & Hf & Hbelow).
           split; [reflexivity|]. split; [lia|]. split; [exact Hf|].
           intros k Hk. destruct (Z.eq_dec k i) as [->|]; [exact Hu|].
           apply Hbelow. lia.
        -- destruct IH as (-> & Hbelow). split; [reflexivity|].
           intros k Hk. destruct (Z.eq_dec k i) as [->|]; [exact Hu|].
           apply Hbelow. lia.
        -- exact IH.
        -- destruct IH as (-> & k & Hk & Hnone). split; [reflexivity|].
           exists k. split; [lia | exact Hnone].
    + split; [reflexivity|]. exists i. split; [lia | exact E].
Qed.

(** With room for every slot it may reach, the loop does not panic. *)
Lemma scan_in_range n i s :
  0 <= i -> i + Z.of_nat n <= bits (data s) ->
  exists r, scan n i s = (Ret r, s).
Proof.
  intros Hi Hroom. pose proof (scan_spec n i s Hi) as H.
  destruct (scan n i s) as [[r| |] s'].
  - assert (s' = s) as -> by (destruct r; tauto). eauto.
  - contradiction.
  - destruct H as (_ & k & Hk & Hnone).
    destruct (lookup_byte_in_range (data s) k ltac:(lia)) as [b Hb]. congruence.
Qed.

(** Outcome of the scan from the head, by cases. *)
Lemma scan_from_head_spec s :
  0 <= head s ->
  match scan_from_head s with
  | (Ret (Some j), s') =>
      s' = s /\ head s <= j < size s /\ slot_free (data s) j = true /\
      forall k, head s <= k < j -> slot_used (data s) k = true
  | (Ret None, s') =>
      s' = s /\ forall k, head s <= k < size s -> slot_used (data s) k = true
  | (Panic, s') =>
      s' = s /\ exists k, head s <= k < size s /\ data s !! Z.to_nat (k / 8) = None
  | (Err, _) => False
  end.
Proof.
  intros Hh. unfold scan_from_head.
  pose proof (scan_spec (Z.to_nat (size s - head s)) (head s) s Hh) as H.
  destruct (scan _ _ s) as [[[j|]| |] s']; [| | exact H |].
  - destruct H as (-> & Hj & Hf & Hb). repeat split; try assumption; lia.
  - destruct H as (-> & Hb). split; [reflexivity|]. intros k Hk. apply Hb. lia.
  - destruct H as (-> & k & Hk & Hn). split; [reflexivity|]. exists k. split; [lia|exact Hn].
Qed.

Lemma scan_from_head_in_range s :
  0 <= head s -> size s <= bits (data s) ->
  exists r, scan_from_head s = (Ret r, s).
Proof.
  intros Hh Hroom. unfold scan_from_head.
  destruct (Z.le_gt_cases (size s) (head s)).
  - replace (Z.to_nat (size s - head s)) with 0%nat by lia.
    exists None. reflexivity.
  - apply scan_in_range; lia.
Qed.

Lemma next_eq s :
  Part000.next s =
  match scan_from_head s with
  | (Ret (Some i), s') => (Ret i, s')
  | (Ret None, s') => (Ret (size s'), s')
  | (Err, s') => (Err, s')
  | (Panic, s') => (Panic, s')
  end.
Proof.
  unfold Part000.next. run.
  destruct (scan_from_head s) as [[[i|]| |] s']; reflexivity.
Qed.

Lemma pop_eq s :
  Part000.pop s =
  if size s <=? head s then (Ret tt, s)
  else
    match data s !! Z.to_nat (head s / 8) with
    | None => (Panic, s)
    | Some b =>
        match Part000.next (mkSlots (<[Z.to_nat (head s / 8) := clear_bit b (head s mod 8)]> (data s))
                                    (head s) (size s) (file s)) with
        | (Ret n, s2) => (Ret tt, mkSlots (data s2) n (size s2) (file s2))
        | (Err, s2) => (Err, s2)
        | (Panic, s2) => (Panic, s2)
        end
    end.
Proof.
  unfold Part000.pop. run.
  destruct (size s <=? head s); [reflexivity|].
  destruct (data s !! Z.to_nat (head s / 8)) eqn:E; simpl; rewrite ?E; [|reflexivity].
  destruct (Part000.next _) as [[n| |] s2]; reflexivity.
Qed.

Lemma pad_eq n s :
  Part000.pad n s = (Ret tt, mkSlots (data s ++ replicate n 255) (head s) (size s) (file s)).
Proof.
  revert s. induction n as [|n IH]; intros s; simpl.
  - unfold ret. rewrite app_nil_r. destruct s; reflexivity.
  - run. rewrite IH. simpl. rewrite <- app_assoc. reflexivity.
Qed.

Lemma grow_eq n s :
  SlotsGo.grow n s = (Ret tt, mkSlots (data s ++ replicate n 255) (head s) (size s) (file s)).
Proof.
  revert s. induction n as [|n IH]; intros s; simpl.
  - unfold ret. rewrite app_nil_r. destruct s; reflexivity.
  - run. rewrite IH. simpl. rewrite <- app_assoc. reflexivity.
Qed.

Lemma extend_eq n s :
  SlotsGo.extend n s =
  (Ret tt, mkSlots (data s ++ replicate (Z.to_nat n) 255) (head s)
                   (wrap32 (size s + wrap32 (wrap32 n * 8))) (file s)).
Proof. unfold SlotsGo.extend. run. rewrite grow_eq. reflexivity. Qed.

(** Head returned by [Next] when the loop finds nothing: the size before
    the extension, as long as that size is a [uint32]. *)
Lemma wrap32_grown sz : is_uint32 sz -> wrap32 (wrap32 (sz + 8) - 8) = sz.
Proof.
  unfold is_uint32, wrap32. intros H.
  rewrite Zminus_mod_idemp_l. replace (sz + 8 - 8) with sz by lia.
  apply Z.mod_small. exact H.
Qed.

Lemma Next_eq s :
  SlotsGo.Next s =
  match scan_from_head s with
  | (Ret (Some i), s') => (Ret i, mkSlots (data s') i (size s') (file s'))
  | (Ret None, s') =>
      (Ret (wrap32 (wrap32 (size s' + 8) - 8)),
       mkSlots (data s' ++ [255]) (wrap32 (wrap32 (size s' + 8) - 8))
               (wrap32 (size s' + 8)) (file s'))
  | (Err, s') => (Err, s')
  | (Panic, s') => (Panic, s')
  end.
Proof.
  unfold SlotsGo.Next, SlotsGo.next. run.
  destruct (scan_from_head s) as [[[i|]| |] s']; reflexivity.
Qed.

(** The count of the loop of [load] is the number of its iterations: after
    [pad_count i sz] steps of 8 the bound is reached, and not before. *)
Lemma pad_count_least i sz :
  sz <= i + 8 * Z.of_nat (Part000.pad_count i sz) /\
  forall n : nat, (n < Part000.pad_count i sz)%nat -> i + 8 * Z.of_nat n < sz.
Proof.
  unfold Part000.pad_count.
  assert (Hq : 8 * ((sz - i + 7) / 8) <= sz - i + 7 < 8 * ((sz - i + 7) / 8) + 8)
    by (Z.div_mod_to_equations; lia).
  split; [|intros n Hn]; lia.
Qed.

Lemma load_eq f sz :
  Part000.load (Part000.newSlots f sz) =
  if failing f then (Err, Part000.newSlots f sz)
  else
    let d := durable f ++ replicate (Part000.pad_count (Z.of_nat (length (durable f)) * 8) sz) 255 in
    match Part000.next (mkSlots d 0 sz f) with
    | (Ret h, s) => (Ret tt, mkSlots (data s) h (size s) (file s))
    | (Err, s) => (Err, s)
    | (Panic, s) => (Panic, s)
    end.
Proof.
  unfold Part000.load, Part000.newSlots, ReadAll. run.
  destruct (failing f); [reflexivity|]. simpl.
  rewrite pad_eq. simpl.
  destruct (Part000.next _) as [[h| |] s]; reflexivity.
Qed.

Lemma SlotsGo_load_eq f :
  SlotsGo.load (SlotsGo.newSlots f) =
  if failing f then (Err, mkSlots [] 0 0 f)
  else (Ret tt, mkSlots (durable f) 0 (wrap32 (Z.of_nat (length (durable f)) * 8)) f).
Proof.
  unfold SlotsGo.load, SlotsGo.newSlots, ReadAll. run.
  destruct (failing f); reflexivity.
Qed.

(** ** The head as a lower bound of the free slots *)

Lemma next_spec s :
  0 <= head s ->
  match Part000.next s with
  | (Ret h, s') =>
      s' = s /\
      (head s <= h < size s /\ slot_free (data s) h = true \/ h = size s) /\
      forall k, head s <= k < h -> slot_used (data s) k = true
  | (Panic, s') =>
      s' = s /\ exists k, head s <= k < size s /\ data s !! Z.to_nat (k / 8) = None
  | (Err, _) => False
  end.
Proof.
  intros Hh. rewrite next_eq. pose proof (scan_from_head_spec s Hh) as H.
  destruct (scan_from_head s) as [[[j|]| |] s']; [| | exact H | exact H].
  - destruct H as (-> & Hj & Hf & Hb). split; [reflexivity|]. split; [left; tauto | exact Hb].
  - destruct H as (-> & Hb). split; [reflexivity|]. split; [right; reflexivity | exact Hb].
Qed.

Lemma push_keeps_below_head h s r s' :
  0 <= h -> 0 <= head s ->
  below_head_used s -> Part000.push h s = (r, s') -> below_head_used s'.
Proof.
  intros Hh Hhead Hinv. rewrite push_eq. unfold below_head_used, lowered in *.
  destruct (data s !! Z.to_nat (h / 8)) as [b|] eqn:E; intros [= <- <-]; simpl; intros i Hi.
  - rewrite slot_used_set; try assumption; try lia.
    + apply Hinv. destruct (Z.ltb_spec h (head s)); lia.
    + destruct (Z.ltb_spec h (head s)); lia.
  - apply Hinv. destruct (Z.ltb_spec h (head s)); lia.
Qed.

Lemma pop_keeps_below_head s r s' :
  0 <= head s ->
  below_head_used s -> Part000.pop s = (r, s') -> below_head_used s'.
Proof.
  intros Hhead Hinv. rewrite pop_eq.
  destruct (size s <=? head s); [intros [= <- <-]; exact Hinv|].
  destruct (data s !! Z.to_nat (head s / 8)) as [b|] eqn:E;
    [|intros [= <- <-]; exact Hinv].
  set (s1 := mkSlots _ _ _ _).
  assert (H1 : forall i, 0 <= i <= head s -> slot_used (data s1) i = true).
  { intros i Hi. unfold s1; simpl. rewrite slot_used_clear; try assumption; try lia.
    destruct (Z.eqb_spec i (head s)); [reflexivity|]. apply Hinv. lia. }
  pose proof (next_spec s1 Hhead) as Hn.
  destruct (Part000.next s1) as [[n| |] s2].
  - destruct Hn as (-> & _ & Hb). intros [= <- <-]. intros i Hi. simpl in *.
    destruct (Z.le_gt_cases i (head s)); [apply H1; lia | apply Hb; lia].
  - contradiction.
  - destruct Hn as (-> & _). intros [= <- <-]. intros i Hi. apply H1. simpl in Hi. lia.
Qed.

Lemma save_keeps s r s' :
  Part000.save s = (r, s') ->
  data s' = data s /\ head s' = head s /\ size s' = size s.
Proof.
  rewrite save_eq. destruct (failing (file s)); intros [= <- <-]; simpl; tauto.
Qed.

Lemma Use_keeps_below_head slot s r s' :
  0 <= slot ->
  below_head_used s -> SlotsGo.Use slot s = (r, s') -> below_head_used s'.
Proof.
  intros Hslot Hinv. rewrite Use_eq.
  destruct (data s !! Z.to_nat (slot / 8)) as [b|] eqn:E; intros [= <- <-];
    [|exact Hinv].
  intros i Hi. simpl in *. rewrite slot_used_clear; try assumption; try lia.
  destruct (i =? slot); [reflexivity | apply Hinv; exact Hi].
Qed.

Lemma Next_keeps_below_head s r s' :
  uint32_fields s ->
  below_head_used s -> SlotsGo.Next s = (r, s') -> below_head_used s'.
Proof.
  intros [Hhead Hsize] Hinv. rewrite Next_eq.
  pose proof (scan_from_head_spec s ltac:(unfold is_uint32 in *; lia)) as H.
  destruct (scan_from_head s) as [[[j|]| |] s0]; [| | contradiction |].
  - destruct H as (-> & Hj & _ & Hb). intros [= <- <-]. intros i Hi. simpl in *.
    destruct (Z.lt_ge_cases i (head s)); [apply Hinv; lia | apply Hb; lia].
  - destruct H as (-> & Hb). intros [= <- <-]. intros i Hi. simpl in *.
    rewrite wrap32_grown in Hi by exact Hsize.
    apply slot_used_app.
    destruct (Z.lt_ge_cases i (head s)); [apply Hinv; lia | apply Hb; lia].
  - destruct H as (-> & _). intros [= <- <-]. exact Hinv.
Qed.

Lemma extend_keeps_below_head n s r s' :
  below_head_used s -> SlotsGo.extend n s = (r, s') -> below_head_used s'.
Proof.
  intros Hinv. rewrite extend_eq. intros [= <- <-]. intros i Hi. simpl in *.
  apply slot_used_app. apply Hinv. exact Hi.
Qed.

(** ** Invariants of the reachable states *)

Lemma shape000_room f sz s : shape000 f sz s -> size s <= bits (data s).
Proof.
  intros (Hsz & _ & _ & Hlen). unfold bits. rewrite Hlen, Hsz.
  pose proof (pad_count_least (Z.of_nat (length (durable f)) * 8) sz) as [H _]. lia.
Qed.

Lemma wrap32_le z : 0 <= z -> 0 <= wrap32 z <= z.
Proof.
  intros Hz. unfold wrap32. split.
  - apply Z.mod_pos_bound. lia.
  - apply Z.mod_le; lia.
Qed.

Lemma wrap32_uint32 z : is_uint32 (wrap32 z).
Proof. unfold is_uint32, wrap32. apply Z.mod_pos_bound. lia. Qed.

Lemma bits_nonneg d : 0 <= bits d.
Proof. unfold bits. lia. Qed.

Lemma bits_app d e : bits (d ++ e) = bits d + bits e.
Proof. unfold bits. rewrite length_app. lia. Qed.

Lemma shapeGo_room s : shapeGo s -> size s <= bits (data s).
Proof.
  intros (_ & _ & Hsz). rewrite Hsz. apply wrap32_le. apply bits_nonneg.
Qed.

Lemma shapeGo_fields s : shapeGo s -> uint32_fields s.
Proof.
  intros (_ & Hh & Hsz). split; [exact Hh | rewrite Hsz; apply wrap32_uint32].
Qed.

Lemma reachable000_inv f sz s :
  Part000.reachable f sz s -> shape000 f sz s /\ below_head_used s.
Proof.
  induction 1 as [s Hsz Hload | s h r s' _ [IHs IHb] Hh Hpush
                 | s r s' _ [IHs IHb] Hpop | s r s' _ [IHs IHb] Hsave].
  - rewrite load_eq in Hload. destruct (failing f); [discriminate|].
    simpl in Hload. set (s0 := mkSlots _ 0 sz f) in Hload.
    pose proof (next_spec s0 ltac:(simpl; lia)) as Hn.
    destruct (Part000.next s0) as [[h| |] s1]; try discriminate.
    destruct Hn as (-> & Hcase & Hb). injection Hload as <-. simpl in *.
    split.
    + unfold shape000; simpl. repeat split; try (unfold is_uint32 in *; lia).
      rewrite length_app, length_replicate. reflexivity.
    + intros i Hi. apply Hb. simpl in Hi. lia.
  - split; [|eapply push_keeps_below_head; eauto; unfold is_uint32, shape000 in *; lia].
    destruct IHs as (Hsz & Hu & Hhd & Hlen).
    rewrite push_eq in Hpush. unfold lowered in Hpush.
    destruct (data s !! Z.to_nat (h / 8)); injection Hpush as <- <-;
      unfold shape000; simpl; rewrite ?length_insert;
      (repeat split; try assumption);
      destruct (Z.ltb_spec h (head s)); unfold is_uint32 in *; lia.
  - split; [|eapply pop_keeps_below_head; eauto; unfold shape000 in *; lia].
    destruct IHs as (Hsz & Hu & Hhd & Hlen).
    rewrite pop_eq in Hpop.
    destruct (size s <=? head s);
      [injection Hpop as <- <-; unfold shape000; tauto|].
    destruct (data s !! Z.to_nat (head s / 8)) as [b|];
      [|injection Hpop as <- <-; unfold shape000; tauto].
    set (s1 := mkSlots _ _ _ _) in Hpop.
    pose proof (next_spec s1 ltac:(simpl; lia)) as Hn.
    destruct (Part000.next s1) as [[n| |] s2]; [| contradiction |].
    + destruct Hn as (-> & Hcase & _). injection Hpop as <- <-.
      unfold shape000; simpl in *. rewrite length_insert.
      split; [exact Hsz|]. split; [exact Hu|]. split; [lia | exact Hlen].
    + destruct Hn as (-> & _). injection Hpop as <- <-.
      unfold shape000; simpl in *. rewrite length_insert.
      split; [exact Hsz|]. split; [exact Hu|]. split; [lia | exact Hlen].
  - apply save_keeps in Hsave. destruct Hsave as (Hd & Hh & Hs).
    unfold shape000, below_head_used in *. rewrite Hd, Hh, Hs. tauto.
Qed.

Lemma reachableGo_inv s :
  SlotsGo.reachable s -> shapeGo s /\ below_head_used s.
Proof.
  induction 1 as [f | f s Hload | s slot r s' _ [IHs IHb] Hslot Hfree
                 | s slot r s' _ [IHs IHb] Hslot Huse | s r s' _ [IHs IHb] Hnext
                 | s n r s' _ [IHs IHb] Hn Hext | s r s' _ [IHs IHb] Hsave].
  - split; [|intros i Hi; simpl in Hi; lia].
    unfold shapeGo, is_uint32, bits; simpl. repeat split; lia || reflexivity.
  - rewrite SlotsGo_load_eq in Hload. destruct (failing f); [discriminate|].
    injection Hload as <-. split; [|intros i Hi; simpl in Hi; lia].
    unfold shapeGo, is_uint32, bits; simpl. repeat split; try lia.
    f_equal. lia.
  - change (SlotsGo.Free slot s) with (Part000.push slot s) in Hfree.
    split; [|eapply push_keeps_below_head; eauto; unfold is_uint32, shapeGo in *; lia].
    destruct IHs as (Hhd & Hu & Hsz).
    rewrite push_eq in Hfree. unfold lowered in Hfree.
    destruct (data s !! Z.to_nat (slot / 8)); injection Hfree as <- <-;
      unfold shapeGo, bits in *; simpl; rewrite ?length_insert;
      (repeat split; try assumption);
      destruct (Z.ltb_spec slot (head s)); unfold is_uint32 in *; lia.
  - split; [|eapply Use_keeps_below_head; eauto; unfold is_uint32 in *; lia].
    destruct IHs as (Hhd & Hu & Hsz).
    rewrite Use_eq in Huse.
    destruct (data s !! Z.to_nat (slot / 8)); injection Huse as <- <-;
      unfold shapeGo, bits in *; simpl; rewrite ?length_insert; tauto.
  - split; [|eapply Next_keeps_below_head; eauto using shapeGo_fields].
    pose proof (shapeGo_room s IHs) as Hroom.
    destruct IHs as (Hhd & Hu & Hsz).
    rewrite Next_eq in Hnext.
    pose proof (scan_from_head_spec s ltac:(lia)) as H.
    destruct (scan_from_head s) as [[[j|]| |] s0]; [| | contradiction |].
    + destruct H as (-> & Hj & _). injection Hnext as <- <-.
      unfold shapeGo, is_uint32 in *; simpl. repeat split; try assumption; try lia.
      pose proof (wrap32_uint32 (bits (data s))) as W. unfold is_uint32 in W. lia.
    + destruct H as (-> & _). injection Hnext as <- <-.
      assert (Hs32 : is_uint32 (size s)) by (rewrite Hsz; apply wrap32_uint32).
      unfold shapeGo; simpl. rewrite wrap32_grown by exact Hs32.
      rewrite bits_app. change (bits [255]) with 8.
      repeat split; try (unfold is_uint32 in *; lia).
      rewrite Hsz. unfold wrap32. rewrite Zplus_mod_idemp_l. reflexivity.
    + destruct H as (-> & _). injection Hnext as <- <-.
      unfold shapeGo; tauto.
  - split; [|eapply extend_keeps_below_head; eauto].
    destruct IHs as (Hhd & Hu & Hsz).
    rewrite extend_eq in Hext. injection Hext as <- <-.
    unfold shapeGo; simpl. rewrite bits_app.
    assert (Hb : bits (replicate (Z.to_nat n) 255) = 8 * n).
    { unfold bits. rewrite length_replicate. lia. }
    rewrite Hb. split; [lia|]. split; [exact Hu|].
    rewrite Hsz. unfold wrap32.
    rewrite Zplus_mod_idemp_l, Zmult_mod_idemp_l, Zplus_mod_idemp_r.
    f_equal. lia.
  - change (SlotsGo.Save s) with (Part000.save s) in Hsave.
    apply save_keeps in Hsave. destruct Hsave as (Hd & Hh & Hs).
    unfold shapeGo, below_head_used in *. rewrite Hd, Hh, Hs. tauto.
Qed.

(** ** Reachable concrete states *)

Lemma three_taken_reachable : Part000.reachable empty_file 16 three_taken.
Proof.
  eapply Part000.reach_pop with (r := Ret tt);
    [eapply Part000.reach_pop with (r := Ret tt);
      [eapply Part000.reach_pop with (r := Ret tt);
        [apply Part000.reach_load; [unfold is_uint32; lia | reflexivity] | reflexivity]
      | reflexivity]
    | reflexivity].
Qed.

Lemma oversized_reachable : Part000.reachable used16_file 8 oversized.
Proof. apply Part000.reach_load; [unfold is_uint32; lia | reflexivity]. Qed.

Lemma one_used_reachable : SlotsGo.reachable one_used.
Proof. apply (SlotsGo.reach_load one_used_file). reflexivity. Qed.

(** * The properties *)

(** C1. The head is a sound lower bound.  In both variants, in every state
    the allocator reaches by a load and any calls of its methods (push/pop;
    Free, Use, Next, extend; saving), however each call ends, every slot
    strictly below the head is used: its bit is 0. *)
Theorem head_lower_bound :
  (forall f sz s, Part000.reachable f sz s -> below_head_used s) /\
  (forall s, SlotsGo.reachable s -> below_head_used s).
Proof.
  split.
  - intros f sz s H. apply (reachable000_inv f sz s H).
  - intros s H. apply (reachableGo_inv s H).
Qed.

Lemma head_lower_bound_witness :
  below_head_used three_taken /\ below_head_used one_used.
Proof.
  split.
  - apply (proj1 head_lower_bound empty_file 16). exact three_taken_reachable.
  - apply (proj2 head_lower_bound). exact one_used_reachable.
Defined.

(** C2. Round trip.  In both variants, for every reachable state whose
    store works, saving succeeds and writes exactly the bytes of the
    bitvector, and a fresh allocator loaded from the store so written holds
    the same bytes; in the variant with a configured size this is for every
    target size not above the size of the saved allocator. *)
Theorem persist_load_roundtrip :
  (forall f sz s sz',
      Part000.reachable f sz s -> failing (file s) = false ->
      is_uint32 sz' -> sz' <= size s ->
      exists s1 s2,
        Part000.save s = (Ret tt, s1) /\ durable (file s1) = data s /\
        Part000.load (Part000.newSlots (file s1) sz') = (Ret tt, s2) /\
        data s2 = data s) /\
  (forall s,
      SlotsGo.reachable s -> failing (file s) = false ->
      exists s1 s2,
        SlotsGo.Save s = (Ret tt, s1) /\ durable (file s1) = data s /\
        SlotsGo.load (SlotsGo.newSlots (file s1)) = (Ret tt, s2) /\
        data s2 = data s).
Proof.
  split.
  - intros f sz s sz' Hreach Hok Hsz' Hle.
    pose proof (shape000_room f sz s (proj1 (reachable000_inv f sz s Hreach))) as Hroom.
    assert (Hp : Part000.pad_count (Z.of_nat (length (data s)) * 8) sz' = 0%nat).
    { unfold Part000.pad_count, bits in *.
      assert ((sz' - Z.of_nat (length (data s)) * 8 + 7) / 8 <= 0)
        by (Z.div_mod_to_equations; lia).
      lia. }
    set (f1 := mkFile (data s) false).
    set (s0 := mkSlots (data s) 0 sz' f1).
    destruct (scan_from_head_in_range s0) as [r Hr];
      [simpl; lia | simpl; lia |].
    exists (mkSlots (data s) (head s) (size s) f1).
    exists (mkSlots (data s) (match r with Some i => i | None => sz' end) sz' f1).
    rewrite save_eq, Hok. split; [reflexivity|]. simpl. split; [reflexivity|].
    rewrite load_eq. simpl. rewrite Hp. simpl. rewrite app_nil_r.
    fold s0. rewrite next_eq, Hr. destruct r; split; reflexivity.
  - intros s Hreach Hok. change (SlotsGo.Save s) with (Part000.save s).
    rewrite save_eq, Hok.
    eexists. eexists. split; [reflexivity|]. simpl. split; [reflexivity|].
    rewrite SlotsGo_load_eq. simpl. split; reflexivity.
Qed.

Lemma persist_load_roundtrip_witness :
  (exists s1 s2,
      Part000.save three_taken = (Ret tt, s1) /\
      durable (file s1) = data three_taken /\
      Part000.load (Part000.newSlots (file s1) 16) = (Ret tt, s2) /\
      data s2 = data three_taken) /\
  (exists s1 s2,
      SlotsGo.Save one_used = (Ret tt, s1) /\
      durable (file s1) = data one_used /\
      SlotsGo.load (SlotsGo.newSlots (file s1)) = (Ret tt, s2) /\
      data s2 = data one_used).
Proof.
  split.
  - apply (proj1 persist_load_roundtrip empty_file 16 three_taken 16).
    + exact three_taken_reachable.
    + reflexivity.
    + unfold is_uint32. lia.
    + simpl. lia.
  - apply (proj2 persist_load_roundtrip one_used).
    + exact one_used_reachable.
    + reflexivity.
Defined.

(** C3, as stated, fails in the variant with a configured size: loading an
    empty store with size 12 leaves two bytes and a capacity of 12, which is
    not a multiple of 8 and not eight times the byte length. *)
Lemma capacity_structure_counterexample :
  exists s,
    Part000.load (Part000.newSlots empty_file 12) = (Ret tt, s) /\
    Part000.reachable empty_file 12 s /\
    s = mkSlots [255; 255] 0 12 empty_file /\
    ~ (size s mod 8 = 0 /\ Z.of_nat (length (data s)) = size s / 8).
Proof.
  exists (mkSlots [255; 255] 0 12 empty_file).
  split; [reflexivity|]. split.
  - apply Part000.reach_load; [unfold is_uint32; lia | reflexivity].
  - split; [reflexivity|]. simpl. intros [H _]. discriminate H.
Qed.

(** C3, amended.  In the variant of slots.go every reachable state
    (construction, load, Free, Use, Next, extend by a count that is not
    negative, Save) has a size that is a multiple of 8 and equal, as a
    uint32, to eight times the byte length, so the byte length is size / 8
    as long as eight times the byte length fits a uint32.  In the variant
    with a configured size every state reached after a load keeps the size
    given to newSlots and a byte slice of the length of the file plus the
    padding of load, with room for the size; the byte length is size / 8
    when the configured size is a multiple of 8 and the file has no more
    than size / 8 bytes. *)
Theorem capacity_structure :
  (forall s,
      SlotsGo.reachable s ->
      size s mod 8 = 0 /\
      size s = wrap32 (8 * Z.of_nat (length (data s))) /\
      (8 * Z.of_nat (length (data s)) < 2 ^ 32 ->
       Z.of_nat (length (data s)) = size s / 8)) /\
  (forall f sz s,
      Part000.reachable f sz s ->
      size s = sz /\
      size s <= 8 * Z.of_nat (length (data s)) /\
      length (data s)
      = (length (durable f)
         + Part000.pad_count (Z.of_nat (length (durable f)) * 8) sz)%nat /\
      (sz mod 8 = 0 -> 8 * Z.of_nat (length (durable f)) <= sz ->
       Z.of_nat (length (data s)) = size s / 8)).
Proof.
  split.
  - intros s Hreach. destruct (reachableGo_inv s Hreach) as [(_ & _ & Hsz) _].
    unfold bits in Hsz. split; [|split; [exact Hsz|]].
    + rewrite Hsz. unfold wrap32. change (2 ^ 32) with 4294967296.
      Z.div_mod_to_equations. lia.
    + intros Hfit. rewrite Hsz. unfold wrap32. rewrite Z.mod_small by lia.
      rewrite Z.mul_comm, Z_div_mult by lia. reflexivity.
  - intros f sz s Hreach. destruct (reachable000_inv f sz s Hreach) as [Hshape _].
    pose proof (shape000_room f sz s Hshape) as Hroom.
    destruct Hshape as (Hsz & Hu & Hhd & Hlen). unfold bits in Hroom.
    split; [exact Hsz|]. split; [exact Hroom|]. split; [exact Hlen|].
    intros Hmod Hfile. rewrite Hlen, Hsz. unfold Part000.pad_count.
    assert (Hq : (sz - Z.of_nat (length (durable f)) * 8 + 7) / 8
                 = sz / 8 - Z.of_nat (length (durable f)))
      by (Z.div_mod_to_equations; lia).
    rewrite Hq. assert (0 <= sz / 8 - Z.of_nat (length (durable f)))
      by (Z.div_mod_to_equations; lia).
    lia.
Qed.

Lemma capacity_structure_witness :
  (size one_used mod 8 = 0 /\
   size one_used = wrap32 (8 * Z.of_nat (length (data one_used))) /\
   Z.of_nat (length (data one_used)) = size one_used / 8) /\
  (size three_taken = 16 /\
   size three_taken <= 8 * Z.of_nat (length (data three_taken)) /\
   Z.of_nat (length (data three_taken)) = size three_taken / 8).
Proof.
  split.
  - destruct (proj1 capacity_structure one_used one_used_reachable)
      as (Hmod & Hsz & Hlen).
    split; [exact Hmod|]. split; [exact Hsz|]. apply Hlen. reflexivity.
  - destruct (proj2 capacity_structure empty_file 16 three_taken three_taken_reachable)
      as (Hsz & Hroom & _ & Hlen).
    split; [exact Hsz|]. split; [exact Hroom|].
    apply Hlen; [reflexivity | simpl; lia].
Defined.

(** ** Allocation *)

(** [pop] on a state with a slot left, when it returns: the head moves to a
    different slot and the old head is used. *)
Lemma pop_moves_head s s1 :
  0 <= head s < size s ->
  Part000.pop s = (Ret tt, s1) ->
  head s1 <> head s /\ slot_used (data s1) (head s) = true.
Proof.
  intros Hh. rewrite pop_eq.
  destruct (Z.leb_spec (size s) (head s)); [lia|].
  destruct (data s !! Z.to_nat (head s / 8)) as [b|] eqn:E; [|discriminate].
  set (s0 := mkSlots _ _ _ _).
  pose proof (next_spec s0 ltac:(simpl; lia)) as Hn.
  destruct (Part000.next s0) as [[n| |] s2]; try discriminate.
  destruct Hn as (-> & Hcase & _). intros [= <-]. simpl in *.
  split.
  - destruct Hcase as [[Hn Hfree]|Hn]; [|lia].
    rewrite slot_free_clear in Hfree by (assumption || lia).
    destruct (Z.eqb_spec n (head s)); [discriminate | assumption].
  - rewrite slot_used_clear by (assumption || lia).
    rewrite Z.eqb_refl. reflexivity.
Qed.

(** In a reachable state with a slot left, [pop] returns. *)
Lemma pop_returns f sz s :
  Part000.reachable f sz s -> head s < size s ->
  exists s1, Part000.pop s = (Ret tt, s1).
Proof.
  intros Hreach Hlt. destruct (reachable000_inv f sz s Hreach) as [Hshape _].
  pose proof (shape000_room f sz s Hshape) as Hroom.
  destruct Hshape as (_ & _ & Hhd & _).
  rewrite pop_eq. destruct (Z.leb_spec (size s) (head s)); [lia|].
  destruct (lookup_byte_in_range (data s) (head s) ltac:(lia)) as [b Hb].
  rewrite Hb. set (s0 := mkSlots _ _ _ _). rewrite next_eq.
  destruct (scan_from_head_in_range s0) as [r Hr].
  - simpl; lia.
  - unfold s0, bits in *; simpl. rewrite length_insert. exact Hroom.
  - rewrite Hr. destruct r; eauto.
Qed.

(** [Next], [Use] of its result, [Next] again, when each returns: the two
    results differ. *)
Lemma Next_Use_Next_differ s a1 s1 s2 a2 s3 :
  uint32_fields s ->
  SlotsGo.Next s = (Ret a1, s1) ->
  SlotsGo.Use a1 s1 = (Ret tt, s2) ->
  SlotsGo.Next s2 = (Ret a2, s3) ->
  a1 <> a2.
Proof.
  intros [Hhead Hsize] H1 H2 H3.
  assert (Hfacts : head s1 = a1 /\ 0 <= a1 /\ is_uint32 (size s1) /\ a1 <> size s1).
  { rewrite Next_eq in H1.
    pose proof (scan_from_head_spec s ltac:(unfold is_uint32 in *; lia)) as H.
    destruct (scan_from_head s) as [[[j|]| |] s0]; try discriminate.
    - destruct H as (-> & Hj & _). injection H1 as <- <-. simpl.
      unfold is_uint32 in *. repeat split; lia.
    - destruct H as (-> & _). injection H1 as <- <-. simpl.
      rewrite wrap32_grown by exact Hsize.
      pose proof (wrap32_uint32 (size s + 8)) as W.
      unfold is_uint32 in *. repeat split; try lia.
      unfold wrap32. change (2 ^ 32) with 4294967296 in *.
      Z.div_mod_to_equations. lia. }
  destruct Hfacts as (Hh1 & Ha1 & Hs1 & Hne).
  rewrite Use_eq in H2.
  destruct (data s1 !! Z.to_nat (a1 / 8)) as [b|] eqn:E; [|discriminate].
  injection H2 as <-.
  rewrite Next_eq in H3.
  set (s2 := mkSlots _ _ _ _) in H3.
  pose proof (scan_from_head_spec s2 ltac:(simpl; lia)) as H.
  destruct (scan_from_head s2) as [[[j|]| |] s0]; try discriminate.
  - destruct H as (-> & _ & Hfree & _). injection H3 as <- _.
    unfold s2 in Hfree; simpl in Hfree.
    intros <-.
    rewrite slot_free_clear, Z.eqb_refl in Hfree by (assumption || lia).
    discriminate.
  - destruct H as (-> & _). injection H3 as <- _. simpl.
    rewrite wrap32_grown by exact Hs1. exact Hne.
Qed.

(** In a reachable state [Next] returns, its result can be marked used, and
    [Next] returns again. *)
Lemma Next_returns s :
  SlotsGo.reachable s -> exists a s1, SlotsGo.Next s = (Ret a, s1).
Proof.
  intros Hreach. destruct (reachableGo_inv s Hreach) as [Hshape _].
  pose proof (shapeGo_room s Hshape) as Hroom. destruct Hshape as (Hhd & _).
  rewrite Next_eq.
  destruct (scan_from_head_in_range s ltac:(lia) Hroom) as [r Hr].
  rewrite Hr. destruct r; eauto.
Qed.

Lemma Use_after_Next_returns s a s1 :
  SlotsGo.reachable s -> SlotsGo.Next s = (Ret a, s1) ->
  exists s2, SlotsGo.Use a s1 = (Ret tt, s2).
Proof.
  intros Hreach HN. destruct (reachableGo_inv s Hreach) as [Hshape _].
  pose proof (shapeGo_room s Hshape) as Hroom.
  pose proof (shapeGo_fields s Hshape) as [_ Hs32].
  destruct Hshape as (Hhd & _).
  assert (Hin : 0 <= a < bits (data s1)).
  { rewrite Next_eq in HN.
    pose proof (scan_from_head_spec s ltac:(lia)) as H.
    destruct (scan_from_head s) as [[[j|]| |] s0]; try discriminate.
    - destruct H as (-> & Hj & _). injection HN as <- <-. simpl. lia.
    - destruct H as (-> & _). injection HN as <- <-. simpl.
      rewrite wrap32_grown by exact Hs32. rewrite bits_app.
      change (bits [255]) with 8. unfold is_uint32 in *. lia. }
  rewrite Use_eq. destruct (lookup_byte_in_range (data s1) a Hin) as [b Hb].
  rewrite Hb. eauto.
Qed.

(** C4. No double allocation.  Variant with a configured size: the slot
    handed out is the head; in every state with a slot left a [pop] that
    returns moves the head to a different slot and leaves the old head used,
    and in every reachable state with a slot left [pop] does return.
    Variant of slots.go: in every state with uint32 fields, when [Next], [Use]
    of its result and [Next] again return, the two results of [Next] differ,
    and in every reachable state the three calls do return. *)
Theorem no_double_allocation :
  (forall s s1,
      0 <= head s < size s -> Part000.pop s = (Ret tt, s1) ->
      head s1 <> head s /\ slot_used (data s1) (head s) = true) /\
  (forall f sz s,
      Part000.reachable f sz s -> head s < size s ->
      exists s1, Part000.pop s = (Ret tt, s1) /\ head s1 <> head s) /\
  (forall s a1 s1 s2 a2 s3,
      uint32_fields s ->
      SlotsGo.Next s = (Ret a1, s1) -> SlotsGo.Use a1 s1 = (Ret tt, s2) ->
      SlotsGo.Next s2 = (Ret a2, s3) ->
      a1 <> a2) /\
  (forall s,
      SlotsGo.reachable s ->
      exists a1 s1 s2 a2 s3,
        SlotsGo.Next s = (Ret a1, s1) /\ SlotsGo.Use a1 s1 = (Ret tt, s2) /\
        SlotsGo.Next s2 = (Ret a2, s3) /\ a1 <> a2).
Proof.
  split; [exact pop_moves_head|]. split; [|split; [exact Next_Use_Next_differ|]].
  - intros f sz s Hreach Hlt.
    destruct (pop_returns f sz s Hreach Hlt) as [s1 Hpop]. exists s1.
    split; [exact Hpop|].
    destruct (reachable000_inv f sz s Hreach) as [(_ & _ & Hhd & _) _].
    apply (pop_moves_head s s1); [lia | exact Hpop].
  - intros s Hreach.
    destruct (Next_returns s Hreach) as (a1 & s1 & H1).
    destruct (Use_after_Next_returns s a1 s1 Hreach H1) as (s2 & H2).
    assert (Hr1 : SlotsGo.reachable s1) by (eapply SlotsGo.reach_Next; eauto).
    assert (Ha1 : is_uint32 a1).
    { destruct (reachableGo_inv s1 Hr1) as [(_ & Hu & _) _].
      rewrite Next_eq in H1.
      destruct (scan_from_head s) as [[[j|]| |] s0]; try discriminate;
        injection H1 as <- <-; exact Hu. }
    assert (Hr2 : SlotsGo.reachable s2) by (eapply SlotsGo.reach_Use; eauto).
    destruct (Next_returns s2 Hr2) as (a2 & s3 & H3).
    exists a1, s1, s2, a2, s3. repeat split; try assumption.
    apply (Next_Use_Next_differ s a1 s1 s2 a2 s3); try assumption.
    apply shapeGo_fields. apply (reachableGo_inv s Hreach).
Qed.

Lemma no_double_allocation_witness :
  (head (mkSlots [240; 255] 4 16 empty_file) <> head three_taken /\
   slot_used (data (mkSlots [240; 255] 4 16 empty_file)) (head three_taken) = true) /\
  (exists s1, Part000.pop three_taken = (Ret tt, s1) /\ head s1 <> head three_taken) /\
  1 <> 2 /\
  (exists a1 s1 s2 a2 s3,
      SlotsGo.Next one_used = (Ret a1, s1) /\ SlotsGo.Use a1 s1 = (Ret tt, s2) /\
      SlotsGo.Next s2 = (Ret a2, s3) /\ a1 <> a2).
Proof.
  destruct no_double_allocation as (Hpop & Hpop_total & HNext & HNext_total).
  split; [|split; [|split]].
  - apply (Hpop three_taken); [simpl; lia | reflexivity].
  - apply (Hpop_total empty_file 16 three_taken);
      [exact three_taken_reachable | simpl; lia].
  - apply (HNext one_used 1 (mkSlots [254] 1 8 one_used_file)
                 (mkSlots [252] 1 8 one_used_file)
                 2 (mkSlots [252] 2 8 one_used_file)).
    + unfold uint32_fields, is_uint32. simpl. lia.
    + reflexivity.
    + reflexivity.
    + reflexivity.
  - apply (HNext_total one_used). exact one_used_reachable.
Defined.

(** ** Exhaustion *)

(** C5, as stated, fails in the variant of slots.go: on the allocator just
    built, where head and size are both 0, [Next] returns slot 0 as an
    ordinary result, after growing the bitvector by one byte. *)
Lemma exhaustion_counterexample :
  head (SlotsGo.newSlots empty_file) = size (SlotsGo.newSlots empty_file) /\
  SlotsGo.reachable (SlotsGo.newSlots empty_file) /\
  SlotsGo.Next (SlotsGo.newSlots empty_file)
  = (Ret 0, mkSlots [255] 0 8 empty_file) /\
  mkSlots [255] 0 8 empty_file <> SlotsGo.newSlots empty_file.
Proof.
  split; [reflexivity|]. split; [apply SlotsGo.reach_new|].
  split; [reflexivity | discriminate].
Qed.

(** C5, amended.  With the head at the size (or beyond), [pop] of the
    variant with a configured size returns normally and leaves the state as
    it is: nothing is taken, nothing grows, and the only sign of exhaustion
    is the head being equal to the size.  With the head at the size, [Next]
    of the variant of slots.go grows instead: it appends one byte with all
    slots free, adds 8 to the size (as a uint32), sets the head to the old
    size and returns it. *)
Theorem exhaustion_behaviour :
  (forall s, size s <= head s -> Part000.pop s = (Ret tt, s)) /\
  (forall s,
      uint32_fields s -> head s = size s ->
      SlotsGo.Next s
      = (Ret (size s),
         mkSlots (data s ++ [255]) (size s) (wrap32 (size s + 8)) (file s))).
Proof.
  split.
  - intros s Hle. rewrite pop_eq.
    destruct (Z.leb_spec (size s) (head s)); [reflexivity | lia].
  - intros s [_ Hsz] Heq. rewrite Next_eq. unfold scan_from_head.
    replace (Z.to_nat (size s - head s)) with 0%nat by lia.
    simpl. unfold ret. rewrite wrap32_grown by exact Hsz. reflexivity.
Qed.

Lemma exhaustion_behaviour_witness :
  Part000.pop oversized = (Ret tt, oversized) /\
  SlotsGo.Next (mkSlots [0] 8 8 empty_file)
  = (Ret 8, mkSlots [0; 255] 8 (wrap32 16) empty_file).
Proof.
  split.
  - apply (proj1 exhaustion_behaviour oversized). simpl. lia.
  - apply (proj2 exhaustion_behaviour (mkSlots [0] 8 8 empty_file)).
    + unfold uint32_fields, is_uint32. simpl. lia.
    + reflexivity.
Defined.

(** ** Loading *)

(** C6, as stated, fails in the variant with a configured size: a store
    of two bytes loaded with size 8 keeps both bytes, but the capacity stays
    8, not 16. *)
Lemma load_capacity_counterexample :
  8 < 8 * Z.of_nat (length (durable used16_file)) /\
  Part000.load (Part000.newSlots used16_file 8) = (Ret tt, oversized) /\
  size oversized = 8 /\
  size oversized <> 8 * Z.of_nat (length (durable used16_file)).
Proof.
  split; [simpl; lia|]. split; [reflexivity|]. split; [reflexivity|].
  simpl. lia.
Qed.

(** [pop] in a reachable state of the variant with a configured size: head
    and size stay within the configured size, and no slot but the old head
    changes; no slot at or beyond the size changes. *)
Lemma pop_within_size f sz s r s1 :
  Part000.reachable f sz s -> Part000.pop s = (r, s1) ->
  size s = sz /\ size s1 = sz /\ 0 <= head s <= sz /\ 0 <= head s1 <= sz /\
  (forall i, 0 <= i -> i <> head s ->
             slot_free (data s1) i = slot_free (data s) i /\
             slot_used (data s1) i = slot_used (data s) i) /\
  (forall i, sz <= i ->
             slot_free (data s1) i = slot_free (data s) i /\
             slot_used (data s1) i = slot_used (data s) i).
Proof.
  intros Hreach Hpop.
  assert (Hreach1 : Part000.reachable f sz s1)
    by (eapply Part000.reach_pop; eauto).
  destruct (reachable000_inv f sz s Hreach) as [(Hsz & Hu & Hhd & _) _].
  destruct (reachable000_inv f sz s1 Hreach1) as [(Hsz1 & _ & Hhd1 & _) _].
  split; [exact Hsz|]. split; [exact Hsz1|].
  split; [lia|]. split; [lia|].
  assert (Hdata : data s1 = data s \/
                  exists b, head s < size s /\
                            data s !! Z.to_nat (head s / 8) = Some b /\
                            data s1 = <[Z.to_nat (head s / 8) := clear_bit b (head s mod 8)]> (data s)).
  { rewrite pop_eq in Hpop.
    destruct (Z.leb_spec (size s) (head s)); [injection Hpop as <- <-; left; reflexivity|].
    destruct (data s !! Z.to_nat (head s / 8)) as [b|] eqn:E;
      [|injection Hpop as <- <-; left; reflexivity].
    right. exists b. split; [lia|]. split; [reflexivity|].
    set (s0 := mkSlots _ _ _ _) in Hpop.
    pose proof (next_spec s0 ltac:(simpl; lia)) as Hn.
    destruct (Part000.next s0) as [[n| |] s2]; [| contradiction |].
    - destruct Hn as (-> & _). injection Hpop as <- <-. reflexivity.
    - destruct Hn as (-> & _). injection Hpop as <- <-. reflexivity. }
  assert (Hother : forall i, 0 <= i -> i <> head s ->
            slot_free (data s1) i = slot_free (data s) i /\
            slot_used (data s1) i = slot_used (data s) i).
  { intros i Hi Hne. destruct Hdata as [->|(b & Hlt & Hb & ->)]; [split; reflexivity|].
    rewrite slot_free_clear, slot_used_clear by (assumption || lia).
    destruct (Z.eqb_spec i (head s)); [contradiction | split; reflexivity]. }
  split; [exact Hother|].
  intros i Hi. destruct Hdata as [Hsame|(b & Hlt & _)].
  - rewrite Hsame. split; reflexivity.
  - apply Hother; lia.
Qed.

(** C6, amended.  Load never truncates the bitvector: when the store
    holds more bits than the configured size, [load] of the variant with a
    configured size keeps every byte of the store, the capacity stays the
    configured size and the head is set within it.  In every state reached
    afterwards the size is still the configured one, the head stays within
    it, and [pop] changes no slot but the head it takes, so it changes no
    slot at or beyond the size: the slots beyond the configured size are
    never handed out.  [load] of the variant of slots.go takes no target: it
    keeps every byte and sets the capacity to eight times the byte length,
    as a uint32. *)
Theorem load_keeps_bytes :
  (forall f sz,
      is_uint32 sz -> failing f = false ->
      sz < 8 * Z.of_nat (length (durable f)) ->
      exists h, 0 <= h <= sz /\
                Part000.load (Part000.newSlots f sz)
                = (Ret tt, mkSlots (durable f) h sz f)) /\
  (forall f,
      failing f = false ->
      SlotsGo.load (SlotsGo.newSlots f)
      = (Ret tt, mkSlots (durable f) 0
                         (wrap32 (8 * Z.of_nat (length (durable f)))) f)) /\
  (forall f sz s r s1,
      Part000.reachable f sz s -> Part000.pop s = (r, s1) ->
      size s = sz /\ size s1 = sz /\ 0 <= head s <= sz /\ 0 <= head s1 <= sz /\
      (forall i, 0 <= i -> i <> head s ->
                 slot_free (data s1) i = slot_free (data s) i /\
                 slot_used (data s1) i = slot_used (data s) i) /\
      (forall i, sz <= i ->
                 slot_free (data s1) i = slot_free (data s) i /\
                 slot_used (data s1) i = slot_used (data s) i)).
Proof.
  split; [|split].
  - intros f sz Hsz Hok Hlt. rewrite load_eq, Hok. simpl.
    assert (Hp : Part000.pad_count (Z.of_nat (length (durable f)) * 8) sz = 0%nat).
    { unfold Part000.pad_count.
      assert ((sz - Z.of_nat (length (durable f)) * 8 + 7) / 8 <= 0)
        by (Z.div_mod_to_equations; lia).
      lia. }
    rewrite Hp. simpl. rewrite app_nil_r.
    set (s0 := mkSlots (durable f) 0 sz f).
    pose proof (scan_from_head_spec s0 ltac:(simpl; lia)) as Hspec.
    rewrite next_eq.
    destruct (scan_from_head_in_range s0) as [r Hr];
      [simpl; lia | unfold bits; simpl; lia |].
    rewrite Hr in *. unfold is_uint32 in Hsz. destruct r as [j|].
    + destruct Hspec as (_ & Hj & _). simpl in Hj.
      exists j. split; [lia | reflexivity].
    + exists sz. split; [lia | reflexivity].
  - intros f Hok. rewrite SlotsGo_load_eq, Hok. do 3 f_equal. lia.
  - intros f sz s r s1 Hreach Hpop. exact (pop_within_size f sz s r s1 Hreach Hpop).
Qed.

Lemma load_keeps_bytes_witness :
  (exists h, 0 <= h <= 8 /\
             Part000.load (Part000.newSlots used16_file 8)
             = (Ret tt, mkSlots (durable used16_file) h 8 used16_file)) /\
  SlotsGo.load (SlotsGo.newSlots used16_file)
  = (Ret tt, mkSlots (durable used16_file) 0
                     (wrap32 (8 * Z.of_nat (length (durable used16_file))))
                     used16_file) /\
  (size three_taken = 16 /\ size (mkSlots [240; 255] 4 16 empty_file) = 16 /\
   0 <= head three_taken <= 16 /\
   0 <= head (mkSlots [240; 255] 4 16 empty_file) <= 16 /\
   (forall i, 0 <= i -> i <> head three_taken ->
              slot_free (data (mkSlots [240; 255] 4 16 empty_file)) i
              = slot_free (data three_taken) i /\
              slot_used (data (mkSlots [240; 255] 4 16 empty_file)) i
              = slot_used (data three_taken) i) /\
   (forall i, 16 <= i ->
              slot_free (data (mkSlots [240; 255] 4 16 empty_file)) i
              = slot_free (data three_taken) i /\
              slot_used (data (mkSlots [240; 255] 4 16 empty_file)) i
              = slot_used (data three_taken) i)).
Proof.
  destruct load_keeps_bytes as (Hload & HloadGo & Hpop).
  split; [|split].
  - apply (Hload used16_file 8).
    + unfold is_uint32. lia.
    + reflexivity.
    + simpl. lia.
  - apply (HloadGo used16_file). reflexivity.
  - apply (Hpop empty_file 16 three_taken (Ret tt)).
    + exact three_taken_reachable.
    + reflexivity.
Defined.

(** C7, as stated, fails in the variant of slots.go: after loading a store
    whose only byte has slot 0 used and slot 1 free, the head is 0, while the
    smallest free slot is 1. *)
Lemma load_head_counterexample :
  SlotsGo.load (SlotsGo.newSlots one_used_file) = (Ret tt, one_used) /\
  head one_used = 0 /\
  slot_used (data one_used) 0 = true /\
  lowest_free one_used 1 /\
  ~ (lowest_free one_used (head one_used) \/
     head one_used = size one_used /\ none_free one_used).
Proof.
  split; [reflexivity|]. split; [reflexivity|]. split; [reflexivity|].
  assert (L : lowest_free one_used 1).
  { split; [simpl; lia|]. split; [reflexivity|].
    intros i Hi. assert (i = 0) as -> by lia. reflexivity. }
  split; [exact L|].
  intros [(_ & Hfree & _) | [Heq _]]; discriminate.
Qed.

(** C7, amended.  In the variant with a configured size, [load] on a fresh
    allocator with a working store returns with the head at the smallest
    free slot below the size, or at the size when no slot below it is free.
    In the variant of slots.go [load] does no scan and leaves the head as it
    was (0 on a fresh allocator); the scan is left to [Next]: on a store with
    fewer than [2^32] slots the first [Next] after the load returns the
    smallest free slot and makes it the head, or grows by one byte and
    returns the old size when no slot is free. *)
Theorem load_head :
  (forall f sz,
      is_uint32 sz -> failing f = false ->
      exists s,
        Part000.load (Part000.newSlots f sz) = (Ret tt, s) /\ size s = sz /\
        (lowest_free s (head s) \/ head s = size s /\ none_free s)) /\
  (forall s r s', SlotsGo.load s = (r, s') -> head s' = head s) /\
  (forall f,
      failing f = false -> bits (durable f) < 2 ^ 32 ->
      exists s a s1,
        SlotsGo.load (SlotsGo.newSlots f) = (Ret tt, s) /\ head s = 0 /\
        SlotsGo.Next s = (Ret a, s1) /\ head s1 = a /\
        (lowest_free s a /\ data s1 = data s /\ size s1 = size s \/
         none_free s /\ a = size s /\ data s1 = data s ++ [255])).
Proof.
  split; [|split].
  - intros f sz Hsz Hok. rewrite load_eq, Hok. simpl.
    set (s0 := mkSlots _ 0 sz f).
    assert (Hroom : size s0 <= bits (data s0)).
    { unfold bits; simpl. rewrite length_app, length_replicate.
      pose proof (pad_count_least (Z.of_nat (length (durable f)) * 8) sz) as [H _].
      lia. }
    pose proof (next_spec s0 ltac:(simpl; lia)) as Hn.
    rewrite next_eq in *.
    destruct (scan_from_head_in_range s0 ltac:(simpl; lia) Hroom) as [r Hr].
    rewrite Hr in *. destruct r as [j|]; destruct Hn as (_ & Hcase & Hb).
    + eexists. split; [reflexivity|]. split; [reflexivity|].
      unfold lowest_free, none_free. subst s0. simpl in *.
      destruct Hcase as [[Hj Hfree]|Hj].
      * left. split; [lia|]. split; [exact Hfree|]. intros i Hi. apply Hb. lia.
      * right. split; [exact Hj|]. intros i Hi. apply Hb. lia.
    + eexists. split; [reflexivity|]. split; [reflexivity|].
      unfold lowest_free, none_free. subst s0. simpl in *.
      right. split; [reflexivity|]. intros i Hi. apply Hb. lia.
  - intros s r s'. unfold SlotsGo.load, ReadAll. run.
    destruct (failing (file s)); intros [= <- <-]; reflexivity.
  - intros f Hok Hfit. rewrite SlotsGo_load_eq, Hok.
    set (s := mkSlots (durable f) 0 _ f).
    assert (Hsize : size s = bits (durable f)).
    { unfold s, bits, wrap32 in *; simpl. rewrite Z.mod_small by lia. lia. }
    exists s. rewrite Next_eq.
    pose proof (scan_from_head_spec s ltac:(simpl; lia)) as H.
    destruct (scan_from_head_in_range s ltac:(simpl; lia)
                ltac:(rewrite Hsize; simpl; lia)) as [r Hr].
    rewrite Hr in *. destruct r as [j|].
    + destruct H as (_ & Hj & Hfree & Hb).
      eexists. eexists. split; [reflexivity|]. split; [reflexivity|].
      split; [reflexivity|]. simpl. split; [reflexivity|].
      left. split; [|split; reflexivity].
      unfold lowest_free. change (head s) with 0 in Hj, Hb.
      split; [lia|]. split; [exact Hfree|]. intros i Hi. apply Hb. lia.
    + destruct H as (_ & Hb). pose proof (bits_nonneg (durable f)) as Hnn.
      rewrite wrap32_grown by (unfold is_uint32; lia).
      eexists. eexists. split; [reflexivity|]. split; [reflexivity|].
      split; [reflexivity|]. simpl. split; [reflexivity|].
      right. split; [|split; reflexivity].
      change (head s) with 0 in Hb.
      intros i Hi. apply Hb. lia.
Qed.

Lemma load_head_witness :
  (exists s,
      Part000.load (Part000.newSlots one_used_file 8) = (Ret tt, s) /\ size s = 8 /\
      (lowest_free s (head s) \/ head s = size s /\ none_free s)) /\
  head one_used = head (SlotsGo.newSlots one_used_file) /\
  (exists s a s1,
      SlotsGo.load (SlotsGo.newSlots one_used_file) = (Ret tt, s) /\ head s = 0 /\
      SlotsGo.Next s = (Ret a, s1) /\ head s1 = a /\
      (lowest_free s a /\ data s1 = data s /\ size s1 = size s \/
       none_free s /\ a = size s /\ data s1 = data s ++ [255])).
Proof.
  destruct load_head as (H000 & HGo & HNext).
  split; [|split].
  - apply (H000 one_used_file 8).
    + unfold is_uint32. lia.
    + reflexivity.
  - apply (HGo (SlotsGo.newSlots one_used_file) (Ret tt) one_used).
    reflexivity.
  - apply (HNext one_used_file); reflexivity.
Defined.

(** ** Releasing *)

Lemma lowered_twice h cur : lowered h (lowered h cur) = lowered h cur.
Proof.
  unfold lowered. destruct (Z.ltb_spec h cur) as [H|H].
  - rewrite Z.ltb_irrefl. reflexivity.
  - destruct (Z.ltb_spec h cur); [lia | reflexivity].
Qed.

(** A release of a slot that has a byte. *)
Lemma release_spec s h :
  0 <= h < bits (data s) ->
  exists s1,
    Part000.push h s = (Ret tt, s1) /\
    slot_free (data s1) h = true /\
    head s1 = lowered h (head s) /\
    size s1 = size s /\ file s1 = file s /\
    length (data s1) = length (data s) /\
    (forall i, 0 <= i -> i <> h -> slot_free (data s1) i = slot_free (data s) i) /\
    (slot_free (data s) h = true -> data s1 = data s) /\
    Part000.push h s1 = (Ret tt, s1).
Proof.
  intros Hh. destruct (lookup_byte_in_range (data s) h Hh) as [b Hb].
  assert (Hk : 0 <= h mod 8 < 8) by (apply Z.mod_pos_bound; lia).
  eexists. rewrite push_eq, Hb. split; [reflexivity|]. simpl.
  split; [rewrite slot_free_set, Z.eqb_refl by (assumption || lia); reflexivity|].
  split; [reflexivity|]. split; [reflexivity|]. split; [reflexivity|].
  split; [apply length_insert|]. split; [|split].
  - intros i Hi Hne. rewrite slot_free_set by (assumption || lia).
    destruct (Z.eqb_spec i h); [contradiction | reflexivity].
  - unfold slot_free. rewrite Hb. intros Hset.
    rewrite bit_is_set_testbit in Hset by lia.
    rewrite set_bit_already by (assumption || lia).
    apply list_insert_id. exact Hb.
  - rewrite push_eq. simpl.
    rewrite list_lookup_insert_eq by (eapply lookup_lt_Some; exact Hb).
    rewrite list_insert_insert_eq, set_bit_twice, lowered_twice by lia.
    reflexivity.
Qed.

(** C8. Release.  In both variants, for every reachable state and every
    slot below the size, [push] (and [Free], the same function) returns; in
    the state it leaves the slot is free, the head is the slot when the slot
    was below the head and is unchanged otherwise, the size and the byte
    length are unchanged, and no other slot changes.  When the slot was free
    already the bytes are unchanged.  A second release of the same slot
    returns and leaves the state as the first one left it. *)
Theorem release_semantics :
  forall s h,
    (exists f sz, Part000.reachable f sz s) \/ SlotsGo.reachable s ->
    0 <= h < size s ->
    exists s1,
      Part000.push h s = (Ret tt, s1) /\ SlotsGo.Free h s = (Ret tt, s1) /\
      slot_free (data s1) h = true /\
      (h < head s -> head s1 = h) /\ (head s <= h -> head s1 = head s) /\
      size s1 = size s /\ length (data s1) = length (data s) /\
      (forall i, 0 <= i -> i <> h -> slot_free (data s1) i = slot_free (data s) i) /\
      (slot_free (data s) h = true -> data s1 = data s) /\
      Part000.push h s1 = (Ret tt, s1) /\ SlotsGo.Free h s1 = (Ret tt, s1).
Proof.
  intros s h Hreach Hh.
  assert (Hroom : size s <= bits (data s)).
  { destruct Hreach as [(f & sz & Hr)|Hr].
    - apply (shape000_room f sz). apply (reachable000_inv f sz s Hr).
    - apply shapeGo_room. apply (reachableGo_inv s Hr). }
  destruct (release_spec s h ltac:(lia))
    as (s1 & Hpush & Hfree & Hhead & Hsize & _ & Hlen & Hother & Hsame & Hagain).
  exists s1.
  split; [exact Hpush|]. split; [exact Hpush|]. split; [exact Hfree|].
  split; [|split].
  - intros Hlt. rewrite Hhead. unfold lowered.
    destruct (Z.ltb_spec h (head s)); [reflexivity | lia].
  - intros Hge. rewrite Hhead. unfold lowered.
    destruct (Z.ltb_spec h (head s)); [lia | reflexivity].
  - split; [exact Hsize|]. split; [exact Hlen|]. split; [exact Hother|].
    split; [exact Hsame|]. split; exact Hagain.
Qed.

Lemma release_semantics_witness :
  exists s1,
    Part000.push 1 three_taken = (Ret tt, s1) /\
    SlotsGo.Free 1 three_taken = (Ret tt, s1) /\
    slot_free (data s1) 1 = true /\
    (1 < head three_taken -> head s1 = 1) /\
    (head three_taken <= 1 -> head s1 = head three_taken) /\
    size s1 = size three_taken /\ length (data s1) = length (data three_taken) /\
    (forall i, 0 <= i -> i <> 1 ->
               slot_free (data s1) i = slot_free (data three_taken) i) /\
    (slot_free (data three_taken) 1 = true -> data s1 = data three_taken) /\
    Part000.push 1 s1 = (Ret tt, s1) /\ SlotsGo.Free 1 s1 = (Ret tt, s1).
Proof.
  apply (release_semantics three_taken 1).
  - left. exists empty_file, 16. exact three_taken_reachable.
  - simpl. lia.
Defined.

(** ** Slots out of range *)

(** C9, as stated, fails in the variant with a configured size: with two
    bytes loaded and size 8, a release of slot 9 returns normally and sets
    a bit of the second byte. *)
Lemma out_of_range_counterexample :
  Part000.reachable used16_file 8 oversized /\
  size oversized <= 9 /\
  Part000.push 9 oversized = (Ret tt, mkSlots [0; 2] 8 8 used16_file) /\
  data (mkSlots [0; 2] 8 8 used16_file) <> data oversized.
Proof.
  split; [exact oversized_reachable|]. split; [simpl; lia|].
  split; [reflexivity | discriminate].
Qed.

(** C9, amended.  [push], [Free] and [Use] reject a slot only by the panic
    of the index out of range, and exactly when the byte of the slot does
    not exist: in every state, a slot whose byte exists (below eight times
    the byte length) is accepted, the call returns normally, and a slot
    whose byte does not exist makes the call panic, never return an error;
    the panic leaves bitvector and size unchanged, and the head too when the
    slot is not below the head.  In the variant of slots.go, as long as eight
    times the byte length fits a uint32, every slot at or above the size of
    a reachable state is rejected this way with the state unchanged.  In the
    variant with a configured size every slot at or above eight times the
    byte length of a reachable state is rejected this way with the state
    unchanged; that bound may exceed the size, and a slot between the two is
    accepted. *)
Theorem out_of_range_rejected :
  (forall s slot,
      SlotsGo.reachable s -> bits (data s) < 2 ^ 32 ->
      size s <= slot ->
      SlotsGo.Free slot s = (Panic, s) /\ SlotsGo.Use slot s = (Panic, s)) /\
  (forall f sz s slot,
      Part000.reachable f sz s ->
      bits (data s) <= slot ->
      size s <= slot /\ Part000.push slot s = (Panic, s)) /\
  (forall s slot,
      0 <= slot ->
      (slot < bits (data s) ->
       exists s1 s2,
         Part000.push slot s = (Ret tt, s1) /\ SlotsGo.Free slot s = (Ret tt, s1) /\
         SlotsGo.Use slot s = (Ret tt, s2)) /\
      (bits (data s) <= slot ->
       exists s1,
         Part000.push slot s = (Panic, s1) /\ SlotsGo.Free slot s = (Panic, s1) /\
         SlotsGo.Use slot s = (Panic, s) /\
         data s1 = data s /\ size s1 = size s /\ file s1 = file s /\
         (head s <= slot -> s1 = s))).
Proof.
  split; [|split].
  - intros s slot Hreach Hfit Hslot.
    destruct (reachableGo_inv s Hreach) as [(Hhd & _ & Hsz) _].
    assert (Hsize : size s = bits (data s)).
    { rewrite Hsz. unfold wrap32. apply Z.mod_small.
      pose proof (bits_nonneg (data s)). lia. }
    assert (Hnone : data s !! Z.to_nat (slot / 8) = None)
      by (apply lookup_byte_out_of_range; lia).
    change (SlotsGo.Free slot s) with (Part000.push slot s).
    rewrite push_eq, Use_eq, Hnone. unfold lowered.
    destruct (Z.ltb_spec slot (head s)); [lia|].
    destruct s; split; reflexivity.
  - intros f sz s slot Hreach Hslot.
    destruct (reachable000_inv f sz s Hreach) as [Hshape _].
    pose proof (shape000_room f sz s Hshape) as Hroom.
    destruct Hshape as (_ & _ & Hhd & _).
    split; [lia|].
    rewrite push_eq, (lookup_byte_out_of_range (data s) slot Hslot).
    unfold lowered. destruct (Z.ltb_spec slot (head s)); [lia|].
    destruct s; reflexivity.
  - intros s slot Hslot. split.
    + intros Hin.
      destruct (lookup_byte_in_range (data s) slot ltac:(lia)) as [b Hb].
      change (SlotsGo.Free slot s) with (Part000.push slot s).
      rewrite push_eq, Use_eq, Hb. eexists. eexists.
      split; [reflexivity|]. split; reflexivity.
    + intros Hout.
      change (SlotsGo.Free slot s) with (Part000.push slot s).
      rewrite push_eq, Use_eq, (lookup_byte_out_of_range (data s) slot Hout).
      eexists. split; [reflexivity|]. split; [reflexivity|]. split; [reflexivity|].
      simpl. split; [reflexivity|]. split; [reflexivity|]. split; [reflexivity|].
      intros Hge. unfold lowered. destruct (Z.ltb_spec slot (head s)); [lia|].
      destruct s; reflexivity.
Qed.

Lemma out_of_range_rejected_witness :
  (SlotsGo.Free 8 one_used = (Panic, one_used) /\
   SlotsGo.Use 8 one_used = (Panic, one_used)) /\
  (size oversized <= 16 /\ Part000.push 16 oversized = (Panic, oversized)) /\
  (exists s1 s2,
      Part000.push 9 oversized = (Ret tt, s1) /\
      SlotsGo.Free 9 oversized = (Ret tt, s1) /\
      SlotsGo.Use 9 oversized = (Ret tt, s2)) /\
  (exists s1,
      Part000.push 16 oversized = (Panic, s1) /\
      SlotsGo.Free 16 oversized = (Panic, s1) /\
      SlotsGo.Use 16 oversized = (Panic, oversized) /\
      data s1 = data oversized /\ size s1 = size oversized /\
      file s1 = file oversized /\
      (head oversized <= 16 -> s1 = oversized)).
Proof.
  destruct out_of_range_rejected as (HGo & H000 & Hexact).
  split; [|split; [|split]].
  - apply (HGo one_used 8).
    + exact one_used_reachable.
    + reflexivity.
    + simpl. lia.
  - apply (H000 used16_file 8 oversized 16).
    + exact oversized_reachable.
    + unfold bits. simpl. lia.
  - apply (proj1 (Hexact oversized 9 ltac:(lia))). unfold bits. simpl. lia.
  - apply (proj2 (Hexact oversized 16 ltac:(lia))). unfold bits. simpl. lia.
Defined.

(** ** Asking for the next slot twice *)

(** The loop ends at once on a free slot. *)
Lemma scan_found_first n i s :
  slot_free (data s) i = true -> (0 < n)%nat ->
  scan n i s = (Ret (Some i), s).
Proof.
  intros Hfree Hn. destruct n as [|n]; [lia|]. simpl. run.
  unfold slot_free in Hfree.
  destruct (data s !! Z.to_nat (i / 8)) as [b|]; [|discriminate].
  rewrite Hfree. reflexivity.
Qed.

(** The loop runs to its end over used slots. *)
Lemma scan_all_used n i s :
  0 <= i ->
  (forall k, i <= k < i + Z.of_nat n -> slot_used (data s) k = true) ->
  scan n i s = (Ret None, s).
Proof.
  intros Hi Hused. pose proof (scan_spec n i s Hi) as H.
  destruct (scan n i s) as [[[j|]| |] s'].
  - destruct H as (_ & Hj & Hfree & _).
    rewrite (slot_used_not_free _ _ (Hused j Hj)) in Hfree. discriminate.
  - destruct H as (-> & _). reflexivity.
  - contradiction.
  - destruct H as (_ & k & Hk & Hnone).
    specialize (Hused k Hk). unfold slot_used in Hused.
    rewrite Hnone in Hused. discriminate.
Qed.

Lemma slot_used_zeros n k :
  0 <= k < 8 * Z.of_nat n -> slot_used (replicate n 0) k = true.
Proof.
  intros Hk. unfold slot_used.
  rewrite lookup_replicate_2; [reflexivity|].
  assert (k / 8 < Z.of_nat n) by (Z.div_mod_to_equations; lia).
  assert (0 <= k / 8) by (Z.div_mod_to_equations; lia).
  lia.
Qed.

(** At the end of the uint32 range: a bitvector of [2^29 - 1] bytes with
    every slot used.  [Next] grows it, the size wraps to 0 and the result
    is [2^32 - 8]; the next [Next] runs no iteration, grows again and
    returns 0. *)
Lemma Next_twice_at_limit (n : nat) (f : sharkyFile) :
  Z.of_nat n = 536870911 ->
  SlotsGo.Next (mkSlots (replicate n 0) 0 4294967288 f)
  = (Ret 4294967288, mkSlots (replicate n 0 ++ [255]) 4294967288 0 f) /\
  SlotsGo.Next (mkSlots (replicate n 0 ++ [255]) 4294967288 0 f)
  = (Ret 0, mkSlots ((replicate n 0 ++ [255]) ++ [255]) 0 8 f).
Proof.
  intros Hn. split.
  - rewrite Next_eq. unfold scan_from_head.
    rewrite scan_all_used; [reflexivity | cbn [head]; lia |].
    cbn [head size data]. intros k Hk. apply slot_used_zeros. lia.
  - rewrite Next_eq. reflexivity.
Qed.

Lemma full_loaded : SlotsGo.load (SlotsGo.newSlots full_file) = (Ret tt, full).
Proof.
  rewrite SlotsGo_load_eq. unfold full, full_file. cbn [failing durable].
  rewrite length_replicate, Z2Nat.id by lia. reflexivity.
Qed.

(** C10, as stated, fails at the end of the uint32 range: after loading a
    store of [2^29 - 1] bytes with every slot used, the first [Next] returns
    [2^32 - 8] and wraps the size to 0, and the second [Next] returns 0. *)
Lemma Next_idempotent_counterexample :
  SlotsGo.reachable full /\
  exists s1 s2,
    SlotsGo.Next full = (Ret 4294967288, s1) /\
    SlotsGo.Next s1 = (Ret 0, s2) /\
    s2 <> s1.
Proof.
  split; [apply (SlotsGo.reach_load full_file); exact full_loaded|].
  destruct (Next_twice_at_limit (Z.to_nat 536870911) full_file) as [H1 H2];
    [apply Z2Nat.id; lia|].
  eexists. eexists. split; [exact H1|]. split; [exact H2|].
  intros E. apply (f_equal head) in E. cbn [head] in E. discriminate E.
Qed.

(** C10, amended.  In the variant of slots.go, for every reachable state
    whose bitvector, grown by one byte, still has fewer than [2^32] slots:
    [Next] returns a slot and leaves its bit set (free), and a second [Next],
    with no [Use] or [Free] in between, returns the same slot and leaves the
    state as the first one left it. *)
Theorem Next_idempotent :
  forall s,
    SlotsGo.reachable s -> bits (data s) + 8 < 2 ^ 32 ->
    exists a s1,
      SlotsGo.Next s = (Ret a, s1) /\
      slot_free (data s1) a = true /\
      SlotsGo.Next s1 = (Ret a, s1).
Proof.
  intros s Hreach Hfit.
  destruct (reachableGo_inv s Hreach) as [Hshape _].
  pose proof (shapeGo_room s Hshape) as Hroom.
  destruct Hshape as (Hhd & Hu & Hsz).
  assert (Hsize : size s = bits (data s)).
  { rewrite Hsz. unfold wrap32. apply Z.mod_small.
    pose proof (bits_nonneg (data s)). lia. }
  rewrite Next_eq.
  pose proof (scan_from_head_spec s ltac:(lia)) as H.
  destruct (scan_from_head_in_range s ltac:(lia) Hroom) as [r Hr].
  rewrite Hr in *. destruct r as [j|].
  - destruct H as (_ & Hj & Hfree & _).
    eexists. eexists. split; [reflexivity|]. split; [exact Hfree|].
    rewrite Next_eq. unfold scan_from_head. cbn [head size data file].
    rewrite scan_found_first; [reflexivity | exact Hfree | lia].
  - rewrite wrap32_grown by (unfold is_uint32; lia).
    assert (Hw : wrap32 (size s + 8) = size s + 8).
    { unfold wrap32. apply Z.mod_small. pose proof (bits_nonneg (data s)). lia. }
    rewrite Hw.
    assert (Hfree : slot_free (data s ++ [255]) (size s) = true).
    { unfold slot_free. rewrite Hsize. unfold bits.
      replace (8 * Z.of_nat (length (data s)) / 8) with (Z.of_nat (length (data s)))
        by (rewrite Z.mul_comm, Z_div_mult; lia).
      rewrite Nat2Z.id, list_lookup_middle by reflexivity.
      rewrite Z.mul_comm, Z_mod_mult. reflexivity. }
    eexists. eexists. split; [reflexivity|]. split; [exact Hfree|].
    rewrite Next_eq. unfold scan_from_head. cbn [head size data file].
    rewrite scan_found_first; [reflexivity | exact Hfree | lia].
Qed.

Lemma Next_idempotent_witness :
  exists a s1,
    SlotsGo.Next one_used = (Ret a, s1) /\
    slot_free (data s1) a = true /\
    SlotsGo.Next s1 = (Ret a, s1).
Proof.
  apply (Next_idempotent one_used).
  - exact one_used_reachable.
  - reflexivity.
Defined.

(** * Further properties of the allocator *)

(** ** Bytes stay bytes *)

Lemma testbit_255 j : 0 <= j < 8 -> Z.testbit 255 j = true.
Proof.
  intros Hj.
  assert (C : j = 0 \/ j = 1 \/ j = 2 \/ j = 3 \/ j = 4 \/ j = 5 \/ j = 6 \/ j = 7) by lia.
  destruct C as [->|[->|[->|[->|[->|[->|[->| ->]]]]]]]; reflexivity.
Qed.

Lemma is_byte_bits b :
  is_byte b <-> 0 <= b /\ forall j, 8 <= j -> Z.testbit b j = false.
Proof.
  unfold is_byte. split.
  - intros Hb. split; [lia|]. intros j Hj.
    rewrite <- (Z.mod_small b (2 ^ 8)) by (change (2 ^ 8) with 256; lia).
    apply Z.mod_pow2_bits_high. lia.
  - intros [Hnn Hhigh].
    assert (E : b mod 2 ^ 8 = b).
    { apply Z.bits_inj'. intros j Hj.
      destruct (Z.lt_ge_cases j 8).
      - apply Z.mod_pow2_bits_low. lia.
      - rewrite Z.mod_pow2_bits_high by lia. symmetry. apply Hhigh. lia. }
    pose proof (Z.mod_pos_bound b (2 ^ 8) ltac:(lia)) as Hm.
    rewrite E in Hm. change (2 ^ 8) with 256 in Hm. lia.
Qed.

Lemma testbit_clear_bit_high b k j :
  0 <= k -> Z.testbit b j = false -> Z.testbit (clear_bit b k) j = false.
Proof.
  intros Hk Hb. unfold clear_bit. rewrite Z.land_spec, Hb. reflexivity.
Qed.

Lemma set_bit_byte b k : is_byte b -> 0 <= k < 8 -> is_byte (set_bit b k).
Proof.
  intros Hb Hk. apply is_byte_bits in Hb. destruct Hb as [Hnn Hhigh].
  apply is_byte_bits. split.
  - unfold set_bit, bit_mask. apply Z.lor_nonneg. split; [exact Hnn|].
    apply Z.shiftl_nonneg. lia.
  - intros j Hj. rewrite testbit_set_bit by lia.
    destruct (Z.eqb_spec j k); [lia | apply Hhigh; exact Hj].
Qed.

Lemma clear_bit_byte b k : is_byte b -> 0 <= k < 8 -> is_byte (clear_bit b k).
Proof.
  intros Hb Hk. apply is_byte_bits in Hb. destruct Hb as [Hnn Hhigh].
  apply is_byte_bits. split.
  - unfold clear_bit. apply Z.land_nonneg. left. exact Hnn.
  - intros j Hj. apply testbit_clear_bit_high; [lia | apply Hhigh; exact Hj].
Qed.

(** Setting a bit that was set before the clearing gives the byte back. *)
Lemma set_clear_bit b k :
  is_byte b -> 0 <= k < 8 -> Z.testbit b k = true ->
  set_bit (clear_bit b k) k = b.
Proof.
  intros Hb Hk Hset. apply is_byte_bits in Hb. destruct Hb as [_ Hhigh].
  apply Z.bits_inj'. intros j Hj. rewrite testbit_set_bit by lia.
  destruct (Z.eqb_spec j k) as [->|Hne]; [symmetry; exact Hset|].
  destruct (Z.lt_ge_cases j 8).
  - rewrite testbit_clear_bit by lia.
    destruct (Z.eqb_spec j k); [contradiction | reflexivity].
  - rewrite testbit_clear_bit_high by (lia || (apply Hhigh; lia)).
    symmetry. apply Hhigh. lia.
Qed.

(** Clearing a bit that was clear before the setting gives the byte back. *)
Lemma clear_set_bit b k :
  is_byte b -> 0 <= k < 8 -> Z.testbit b k = false ->
  clear_bit (set_bit b k) k = b.
Proof.
  intros Hb Hk Hclear. apply is_byte_bits in Hb. destruct Hb as [_ Hhigh].
  apply Z.bits_inj'. intros j Hj.
  destruct (Z.lt_ge_cases j 8).
  - rewrite testbit_clear_bit, testbit_set_bit by lia.
    destruct (Z.eqb_spec j k) as [->|]; [symmetry; exact Hclear | reflexivity].
  - rewrite testbit_clear_bit_high.
    + symmetry. apply Hhigh. lia.
    + lia.
    + rewrite testbit_set_bit by lia.
      destruct (Z.eqb_spec j k); [lia | apply Hhigh; lia].
Qed.

Lemma clear_bit_twice b k : clear_bit (clear_bit b k) k = clear_bit b k.
Proof.
  unfold clear_bit. rewrite <- Z.land_assoc, Z.land_diag. reflexivity.
Qed.

Lemma bytes_ok_lookup d n b : bytes_ok d -> d !! n = Some b -> is_byte b.
Proof.
  unfold bytes_ok. intros Hd Hb. rewrite Forall_lookup in Hd. exact (Hd n b Hb).
Qed.

Lemma bytes_ok_insert d n b : bytes_ok d -> is_byte b -> bytes_ok (<[n := b]> d).
Proof. unfold bytes_ok. intros Hd Hb. apply Forall_insert; assumption. Qed.

Lemma mod8_range i : 0 <= i mod 8 < 8.
Proof. apply Z.mod_pos_bound. lia. Qed.

(** The loop of [next] never writes. *)
Lemma scan_state n i s : snd (scan n i s) = s.
Proof.
  revert i. induction n as [|n IH]; intros i; simpl; [reflexivity|].
  run. destruct (data s !! Z.to_nat (i / 8)) as [b|]; [|reflexivity].
  destruct (bit_is_set b (i mod 8)); [reflexivity | apply IH].
Qed.

Lemma next_state s : snd (Part000.next s) = s.
Proof.
  rewrite next_eq. unfold scan_from_head.
  pose proof (scan_state (Z.to_nat (size s - head s)) (head s) s) as H.
  destruct (scan _ _ s) as [[[j|]| |] s']; simpl in *; subst; reflexivity.
Qed.

(** In the variant with a configured size the byte slice holds bytes as
    long as the store did. *)
Lemma reachable000_bytes f sz s :
  bytes_ok (durable f) -> Part000.reachable f sz s -> bytes_ok (data s).
Proof.
  intros Hf. induction 1 as [s Hsz Hload | s h r s' _ IH Hh Hpush
                            | s r s' _ IH Hpop | s r s' _ IH Hsave].
  - rewrite load_eq in Hload. destruct (failing f); [discriminate|].
    simpl in Hload. set (s0 := mkSlots _ 0 sz f) in Hload.
    pose proof (next_state s0) as Hn.
    assert (Hs0 : bytes_ok (data s0)).
    { unfold s0, bytes_ok; simpl. apply Forall_app. split; [exact Hf|].
      apply Forall_replicate. unfold is_byte. lia. }
    destruct (Part000.next s0) as [[h| |] s1]; try discriminate.
    simpl in Hn. subst s1. injection Hload as <-. exact Hs0.
  - rewrite push_eq in Hpush.
    destruct (data s !! Z.to_nat (h / 8)) as [b|] eqn:E; injection Hpush as <- <-;
      [|exact IH].
    simpl. apply bytes_ok_insert; [exact IH|].
    apply set_bit_byte; [eapply bytes_ok_lookup; eauto | apply mod8_range].
  - rewrite pop_eq in Hpop.
    destruct (size s <=? head s); [injection Hpop as <- <-; exact IH|].
    destruct (data s !! Z.to_nat (head s / 8)) as [b|] eqn:E;
      [|injection Hpop as <- <-; exact IH].
    set (s1 := mkSlots _ _ _ _) in Hpop.
    assert (H1 : bytes_ok (data s1)).
    { unfold s1; simpl. apply bytes_ok_insert; [exact IH|].
      apply clear_bit_byte; [eapply bytes_ok_lookup; eauto | apply mod8_range]. }
    pose proof (next_state s1) as Hn.
    destruct (Part000.next s1) as [[n| |] s2]; simpl in Hn; subst s2;
      injection Hpop as <- <-; exact H1.
  - apply save_keeps in Hsave. destruct Hsave as (Hd & _). rewrite Hd. exact IH.
Qed.

(** ** The head of the variant with a configured size is exact *)

(** A head below the size points at a free slot. *)
Lemma reachable000_head_free f sz s :
  Part000.reachable f sz s -> head s < size s ->
  slot_free (data s) (head s) = true.
Proof.
  induction 1 as [s Hsz Hload | s h r s' Hr IH Hh Hpush
                 | s r s' Hr IH Hpop | s r s' Hr IH Hsave].
  - rewrite load_eq in Hload. destruct (failing f); [discriminate|].
    simpl in Hload. set (s0 := mkSlots _ 0 sz f) in Hload.
    pose proof (next_spec s0 ltac:(simpl; lia)) as Hn.
    destruct (Part000.next s0) as [[h| |] s1]; try discriminate.
    destruct Hn as (-> & Hcase & _). injection Hload as <-. simpl.
    intros Hlt. destruct Hcase as [[_ Hfree]|Heq]; [exact Hfree | simpl in Heq; lia].
  - destruct (reachable000_inv f sz s Hr) as [Hshape _].
    pose proof (shape000_room f sz s Hshape) as Hroom.
    destruct Hshape as (_ & _ & Hhd & _).
    rewrite push_eq in Hpush. unfold lowered in Hpush.
    destruct (data s !! Z.to_nat (h / 8)) as [b|] eqn:E; injection Hpush as <- <-; simpl.
    + intros Hlt. rewrite slot_free_set; try assumption;
        try (destruct (Z.ltb_spec h (head s)); unfold is_uint32 in *; lia).
      destruct (Z.ltb_spec h (head s)).
      * rewrite Z.eqb_refl. reflexivity.
      * destruct (head s =? h); [reflexivity | apply IH; exact Hlt].
    + destruct (Z.ltb_spec h (head s)) as [Hlt|Hge]; [|exact IH].
      destruct (lookup_byte_in_range (data s) h ltac:(unfold is_uint32 in *; lia))
        as [b Hb]. congruence.
  - destruct (reachable000_inv f sz s Hr) as [Hshape _].
    pose proof (shape000_room f sz s Hshape) as Hroom.
    destruct Hshape as (_ & _ & Hhd & _).
    rewrite pop_eq in Hpop.
    destruct (Z.leb_spec (size s) (head s)); [injection Hpop as <- <-; exact IH|].
    destruct (data s !! Z.to_nat (head s / 8)) as [b|] eqn:E;
      [|injection Hpop as <- <-; exact IH].
    set (s1 := mkSlots _ _ _ _) in Hpop.
    pose proof (next_spec s1 ltac:(simpl; lia)) as Hn.
    assert (Hroom1 : size s1 <= bits (data s1))
      by (unfold s1, bits in *; simpl; rewrite length_insert; exact Hroom).
    rewrite next_eq in Hpop, Hn.
    destruct (scan_from_head_in_range s1 ltac:(simpl; lia) Hroom1) as [q Hq].
    rewrite Hq in Hpop, Hn. destruct q as [j|].
    + destruct Hn as (_ & Hcase & _). injection Hpop as <- <-. simpl.
      intros Hlt. destruct Hcase as [[_ Hfree]|Heq]; [exact Hfree | simpl in Heq; lia].
    + injection Hpop as <- <-. simpl. intros Hlt. simpl in Hlt. lia.
  - apply save_keeps in Hsave. destruct Hsave as (Hd & Hh & Hs).
    rewrite Hd, Hh, Hs. exact IH.
Qed.

(** X1. In the variant with a configured size the head is exact in every
    reachable state: it is the lowest free slot below the size, or it is the
    size and no slot below the size is free. *)
Theorem head_is_lowest_free :
  forall f sz s,
    Part000.reachable f sz s ->
    lowest_free s (head s) \/ head s = size s /\ none_free s.
Proof.
  intros f sz s Hreach.
  destruct (reachable000_inv f sz s Hreach) as [(_ & _ & Hhd & _) Hbelow].
  destruct (Z.lt_ge_cases (head s) (size s)) as [Hlt|Hge].
  - left. split; [lia|]. split; [|exact Hbelow].
    apply (reachable000_head_free f sz s Hreach Hlt).
  - right. assert (Heq : head s = size s) by lia. split; [exact Heq|].
    intros i Hi. apply Hbelow. lia.
Qed.

Lemma head_is_lowest_free_witness :
  lowest_free three_taken (head three_taken) \/
  head three_taken = size three_taken /\ none_free three_taken.
Proof.
  apply (head_is_lowest_free empty_file 16 three_taken).
  exact three_taken_reachable.
Defined.

(** ** Taking and giving back *)

(** X2. In the variant with a configured size, in every reachable state
    with a slot left, [pop] returns; it marks the old head used and changes
    no other slot, nor the size, the byte length or the store; the head
    moves up, to the lowest free slot above the old head or to the size when
    there is none. *)
Theorem pop_takes_head :
  forall f sz s,
    Part000.reachable f sz s -> head s < size s ->
    exists s1,
      Part000.pop s = (Ret tt, s1) /\
      slot_used (data s1) (head s) = true /\
      (forall i, 0 <= i -> i <> head s ->
                 slot_free (data s1) i = slot_free (data s) i) /\
      size s1 = size s /\ length (data s1) = length (data s) /\
      file s1 = file s /\
      head s < head s1 <= size s /\
      (forall i, head s < i < head s1 -> slot_used (data s) i = true) /\
      (head s1 < size s -> slot_free (data s) (head s1) = true).
Proof.
  intros f sz s Hreach Hlt.
  destruct (reachable000_inv f sz s Hreach) as [Hshape _].
  pose proof (shape000_room f sz s Hshape) as Hroom.
  destruct Hshape as (_ & _ & Hhd & _).
  destruct (lookup_byte_in_range (data s) (head s) ltac:(lia)) as [b Hb].
  rewrite pop_eq. destruct (Z.leb_spec (size s) (head s)); [lia|].
  rewrite Hb. set (s0 := mkSlots _ _ _ _).
  pose proof (next_spec s0 ltac:(simpl; lia)) as Hn.
  assert (Hroom0 : size s0 <= bits (data s0))
    by (unfold s0, bits in *; simpl; rewrite length_insert; exact Hroom).
  rewrite next_eq in *.
  destruct (scan_from_head_in_range s0 ltac:(simpl; lia) Hroom0) as [q Hq].
  rewrite Hq in *.
  assert (Hother : forall i, 0 <= i -> i <> head s ->
            slot_free (data s0) i = slot_free (data s) i).
  { intros i Hi Hne. unfold s0; simpl. rewrite slot_free_clear by (assumption || lia).
    destruct (Z.eqb_spec i (head s)); [contradiction | reflexivity]. }
  assert (Hused : forall i, 0 <= i -> i <> head s ->
            slot_used (data s0) i = slot_used (data s) i).
  { intros i Hi Hne. unfold s0; simpl. rewrite slot_used_clear by (assumption || lia).
    destruct (Z.eqb_spec i (head s)); [contradiction | reflexivity]. }
  assert (Htaken : slot_used (data s0) (head s) = true).
  { unfold s0; simpl. rewrite slot_used_clear, Z.eqb_refl by (assumption || lia).
    reflexivity. }
  assert (Hnothead : slot_free (data s0) (head s) = false)
    by (apply slot_used_not_free; exact Htaken).
  destruct q as [j|]; destruct Hn as (_ & Hcase & Hb0);
    unfold s0 in Hcase, Hb0; simpl in Hcase, Hb0;
    eexists; (split; [reflexivity|]); simpl;
    (split; [exact Htaken|]); (split; [exact Hother|]);
    (split; [reflexivity|]); (split; [apply length_insert|]);
    (split; [reflexivity|]).
  - assert (Hne : j <> head s).
    { destruct Hcase as [[Hj Hfree]|Hj]; [|lia]. intros ->.
      unfold s0 in Hnothead; simpl in Hnothead. congruence. }
    split; [lia|]. split.
    + intros i Hi. rewrite <- Hused by lia. apply Hb0. lia.
    + intros Hltj. destruct Hcase as [[Hj Hfree]|Hj]; [|lia].
      rewrite <- Hother by lia. exact Hfree.
  - split; [lia|]. split.
    + intros i Hi. rewrite <- Hused by lia. apply Hb0. lia.
    + intros Hcontra. lia.
Qed.

Lemma pop_takes_head_witness :
  exists s1,
    Part000.pop three_taken = (Ret tt, s1) /\
    slot_used (data s1) (head three_taken) = true /\
    (forall i, 0 <= i -> i <> head three_taken ->
               slot_free (data s1) i = slot_free (data three_taken) i) /\
    size s1 = size three_taken /\
    length (data s1) = length (data three_taken) /\
    file s1 = file three_taken /\
    head three_taken < head s1 <= size three_taken /\
    (forall i, head three_taken < i < head s1 ->
               slot_used (data three_taken) i = true) /\
    (head s1 < size three_taken -> slot_free (data three_taken) (head s1) = true).
Proof.
  apply (pop_takes_head empty_file 16 three_taken).
  - exact three_taken_reachable.
  - simpl. lia.
Defined.

(** X3. In the variant with a configured size, started on a store of
    bytes: in every reachable state with a slot left, [pop] followed by
    [push] of the slot it took gives back the very same state. *)
Theorem pop_push_restores :
  forall f sz s,
    bytes_ok (durable f) -> Part000.reachable f sz s -> head s < size s ->
    exists s1,
      Part000.pop s = (Ret tt, s1) /\ Part000.push (head s) s1 = (Ret tt, s).
Proof.
  intros f sz s Hf Hreach Hlt.
  pose proof (reachable000_bytes f sz s Hf Hreach) as Hbytes.
  pose proof (reachable000_head_free f sz s Hreach Hlt) as Hfree.
  destruct (reachable000_inv f sz s Hreach) as [Hshape _].
  destruct Hshape as (_ & _ & Hhd & _).
  destruct (Part000.pop s) as [r s1] eqn:Hpop.
  assert (Hpop' := Hpop). rewrite pop_eq in Hpop'.
  destruct (Z.leb_spec (size s) (head s)); [lia|].
  unfold slot_free in Hfree.
  destruct (data s !! Z.to_nat (head s / 8)) as [b|] eqn:Hb; [|discriminate].
  rewrite bit_is_set_testbit in Hfree by (apply mod8_range).
  set (s0 := mkSlots _ _ _ _) in Hpop'.
  pose proof (next_spec s0 ltac:(simpl; lia)) as Hn.
  assert (Hnothead : slot_free (data s0) (head s) = false).
  { unfold s0; simpl. rewrite slot_free_clear, Z.eqb_refl by (assumption || lia).
    reflexivity. }
  assert (Hroom0 : size s0 <= bits (data s0)).
  { unfold s0, bits; simpl. rewrite length_insert.
    apply (shape000_room f sz s). apply (reachable000_inv f sz s Hreach). }
  rewrite next_eq in Hpop', Hn.
  destruct (scan_from_head_in_range s0 ltac:(simpl; lia) Hroom0) as [q Hq].
  rewrite Hq in Hpop', Hn.
  assert (Hs1 : exists n, head s < n /\ r = Ret tt /\
                          s1 = mkSlots (data s0) n (size s) (file s)).
  { destruct q as [j|]; destruct Hn as (_ & Hcase & _); injection Hpop' as <- <-;
      unfold s0 in Hcase; simpl in Hcase.
    - exists j. split; [|split; reflexivity].
      destruct Hcase as [[Hj Hfj]|Hj]; [|lia].
      assert (j <> head s).
      { intros ->. unfold s0 in Hnothead; simpl in Hnothead. congruence. }
      lia.
    - exists (size s). split; [lia | split; reflexivity]. }
  destruct Hs1 as (n & Hn1 & -> & ->). exists (mkSlots (data s0) n (size s) (file s)).
  split; [reflexivity|].
  rewrite push_eq. unfold s0; simpl.
  rewrite list_lookup_insert_eq by (eapply lookup_lt_Some; exact Hb).
  rewrite list_insert_insert_eq.
  rewrite set_clear_bit;
    [| eapply bytes_ok_lookup; eauto | apply mod8_range | exact Hfree].
  rewrite list_insert_id by exact Hb.
  unfold lowered. destruct (Z.ltb_spec (head s) n); [|lia].
  destruct s; reflexivity.
Qed.

Lemma pop_push_restores_witness :
  exists s1,
    Part000.pop three_taken = (Ret tt, s1) /\
    Part000.push (head three_taken) s1 = (Ret tt, three_taken).
Proof.
  apply (pop_push_restores empty_file 16 three_taken).
  - apply Forall_nil. exact I.
  - exact three_taken_reachable.
  - simpl. lia.
Defined.

(** X4. In the variant with a configured size, started on a store of
    bytes: in every reachable state, [push] of a slot below the head (a used
    slot) makes that slot the head, and the [pop] that follows takes it again
    and gives back the very same state: a released hole is reused first. *)
Theorem push_pop_restores :
  forall f sz s h,
    bytes_ok (durable f) -> Part000.reachable f sz s -> 0 <= h < head s ->
    exists s1,
      Part000.push h s = (Ret tt, s1) /\ head s1 = h /\
      slot_free (data s1) h = true /\
      Part000.pop s1 = (Ret tt, s).
Proof.
  intros f sz s h Hf Hreach Hh.
  pose proof (reachable000_bytes f sz s Hf Hreach) as Hbytes.
  destruct (reachable000_inv f sz s Hreach) as [Hshape Hbelow].
  pose proof (shape000_room f sz s Hshape) as Hroom.
  destruct Hshape as (_ & _ & Hhd & _).
  destruct (lookup_byte_in_range (data s) h ltac:(lia)) as [b Hb].
  assert (Hclear : Z.testbit b (h mod 8) = false).
  { pose proof (Hbelow h Hh) as Hu. unfold slot_used in Hu. rewrite Hb in Hu.
    rewrite bit_is_set_testbit in Hu by (apply mod8_range).
    apply negb_true_iff. exact Hu. }
  rewrite push_eq, Hb. unfold lowered. destruct (Z.ltb_spec h (head s)); [|lia].
  eexists. split; [reflexivity|]. simpl. split; [reflexivity|].
  split; [rewrite slot_free_set, Z.eqb_refl by (assumption || lia); reflexivity|].
  rewrite pop_eq. simpl. destruct (Z.leb_spec (size s) h); [lia|].
  rewrite list_lookup_insert_eq by (eapply lookup_lt_Some; exact Hb).
  rewrite list_insert_insert_eq.
  rewrite clear_set_bit;
    [| eapply bytes_ok_lookup; eauto | apply mod8_range | exact Hclear].
  rewrite list_insert_id by exact Hb.
  set (s0 := mkSlots (data s) h (size s) (file s)).
  pose proof (next_spec s0 ltac:(simpl; lia)) as Hn.
  rewrite next_eq in *.
  destruct (scan_from_head_in_range s0 ltac:(simpl; lia) Hroom) as [q Hq].
  rewrite Hq in *.
  assert (Hres : match q with Some j => j | None => size s end = head s).
  { destruct q as [j|]; destruct Hn as (_ & Hcase & Hb0);
      unfold s0 in Hcase, Hb0; simpl in Hcase, Hb0.
    - destruct (Z.lt_trichotomy j (head s)) as [Hlt|[Heq|Hgt]]; [|exact Heq|].
      + destruct Hcase as [[Hj Hfree]|Hj]; [|lia].
        rewrite (slot_used_not_free _ _ (Hbelow j ltac:(lia))) in Hfree.
        discriminate.
      + assert (Hhs : head s < size s) by (destruct Hcase as [[Hj _]|Hj]; lia).
        pose proof (reachable000_head_free f sz s Hreach Hhs) as Hfree.
        rewrite (slot_used_not_free _ _ (Hb0 (head s) ltac:(lia))) in Hfree.
        discriminate.
    - destruct (Z.lt_ge_cases (head s) (size s)) as [Hhs|Hge]; [|lia].
      pose proof (reachable000_head_free f sz s Hreach Hhs) as Hfree.
      rewrite (slot_used_not_free _ _ (Hb0 (head s) ltac:(lia))) in Hfree.
      discriminate. }
  clear Hn Hq. destruct q as [j|]; unfold s0; destruct s; simpl in *; congruence.
Qed.

Lemma push_pop_restores_witness :
  exists s1,
    Part000.push 1 three_taken = (Ret tt, s1) /\ head s1 = 1 /\
    slot_free (data s1) 1 = true /\
    Part000.pop s1 = (Ret tt, three_taken).
Proof.
  apply (push_pop_restores empty_file 16 three_taken 1).
  - apply Forall_nil. exact I.
  - exact three_taken_reachable.
  - simpl. lia.
Defined.

(** ** Marking used *)

(** X5. In the variant of slots.go, for every reachable state and every
    slot below the size, [Use] returns; the slot is used afterwards, no other
    slot changes, head, size, byte length and store are unchanged, and a
    second [Use] of the same slot returns and changes nothing. *)
Theorem Use_semantics :
  forall s slot,
    SlotsGo.reachable s -> 0 <= slot < size s ->
    exists s1,
      SlotsGo.Use slot s = (Ret tt, s1) /\
      slot_used (data s1) slot = true /\
      (forall i, 0 <= i -> i <> slot ->
                 slot_free (data s1) i = slot_free (data s) i) /\
      head s1 = head s /\ size s1 = size s /\ file s1 = file s /\
      length (data s1) = length (data s) /\
      SlotsGo.Use slot s1 = (Ret tt, s1).
Proof.
  intros s slot Hreach Hslot.
  pose proof (shapeGo_room s (proj1 (reachableGo_inv s Hreach))) as Hroom.
  destruct (lookup_byte_in_range (data s) slot ltac:(lia)) as [b Hb].
  rewrite Use_eq, Hb. eexists. split; [reflexivity|]. simpl.
  split; [rewrite slot_used_clear, Z.eqb_refl by (assumption || lia); reflexivity|].
  split.
  { intros i Hi Hne. rewrite slot_free_clear by (assumption || lia).
    destruct (Z.eqb_spec i slot); [contradiction | reflexivity]. }
  split; [reflexivity|]. split; [reflexivity|]. split; [reflexivity|].
  split; [apply length_insert|].
  rewrite Use_eq. simpl.
  rewrite list_lookup_insert_eq by (eapply lookup_lt_Some; exact Hb).
  rewrite list_insert_insert_eq, clear_bit_twice. reflexivity.
Qed.

Lemma Use_semantics_witness :
  exists s1,
    SlotsGo.Use 1 one_used = (Ret tt, s1) /\
    slot_used (data s1) 1 = true /\
    (forall i, 0 <= i -> i <> 1 ->
               slot_free (data s1) i = slot_free (data one_used) i) /\
    head s1 = head one_used /\ size s1 = size one_used /\
    file s1 = file one_used /\
    length (data s1) = length (data one_used) /\
    SlotsGo.Use 1 s1 = (Ret tt, s1).
Proof.
  apply (Use_semantics one_used 1).
  - exact one_used_reachable.
  - simpl. lia.
Defined.

(** ** Growing *)

Lemma slot_free_app_old d e i :
  0 <= i < bits d -> slot_free (d ++ e) i = slot_free d i.
Proof.
  intros Hi. unfold slot_free.
  destruct (lookup_byte_in_range d i Hi) as [b Hb].
  rewrite (lookup_app_l_Some _ _ _ _ Hb), Hb. reflexivity.
Qed.

Lemma slot_free_app_ones d n i :
  bits d <= i < bits d + 8 * Z.of_nat n ->
  slot_free (d ++ replicate n 255) i = true.
Proof.
  unfold bits. intros Hi. unfold slot_free.
  assert (Hq : Z.of_nat (length d) <= i / 8 < Z.of_nat (length d) + Z.of_nat n)
    by (Z.div_mod_to_equations; lia).
  rewrite lookup_app_r by lia.
  rewrite lookup_replicate_2 by lia.
  rewrite bit_is_set_testbit by (apply mod8_range).
  apply testbit_255. apply mod8_range.
Qed.

(** X6. [extend] by a count that is not negative always returns; it
    appends that many bytes, every slot of the appended region is free, every
    slot that had a byte keeps its state, the head is unchanged and the size
    grows by eight times the count, as a uint32. *)
Theorem extend_appends_free :
  forall s n,
    0 <= n ->
    exists s1,
      SlotsGo.extend n s = (Ret tt, s1) /\
      bits (data s1) = bits (data s) + 8 * n /\
      (forall i, bits (data s) <= i < bits (data s) + 8 * n ->
                 slot_free (data s1) i = true) /\
      (forall i, 0 <= i < bits (data s) ->
                 slot_free (data s1) i = slot_free (data s) i) /\
      head s1 = head s /\ size s1 = wrap32 (size s + 8 * n) /\
      file s1 = file s.
Proof.
  intros s n Hn. rewrite extend_eq. eexists. split; [reflexivity|]. simpl.
  split; [rewrite bits_app; unfold bits; rewrite length_replicate; lia|].
  split; [intros i Hi; apply slot_free_app_ones; lia|].
  split; [intros i Hi; apply slot_free_app_old; exact Hi|].
  split; [reflexivity|]. split; [|reflexivity].
  unfold wrap32. rewrite Zmult_mod_idemp_l, Zplus_mod_idemp_r. f_equal. lia.
Qed.

Lemma extend_appends_free_witness :
  exists s1,
    SlotsGo.extend 2 one_used = (Ret tt, s1) /\
    bits (data s1) = bits (data one_used) + 8 * 2 /\
    (forall i, bits (data one_used) <= i < bits (data one_used) + 8 * 2 ->
               slot_free (data s1) i = true) /\
    (forall i, 0 <= i < bits (data one_used) ->
               slot_free (data s1) i = slot_free (data one_used) i) /\
    head s1 = head one_used /\ size s1 = wrap32 (size one_used + 8 * 2) /\
    file s1 = file one_used.
Proof.
  apply (extend_appends_free one_used 2). lia.
Defined.

(** X7. [extend] by a negative count (above [-2^29]) in a reachable state
    returns without touching the bitvector, yet lowers the size by eight
    times the count, as a uint32: the size is no longer eight times the byte
    length. *)
Theorem extend_negative_breaks_size :
  forall s n,
    SlotsGo.reachable s -> - 2 ^ 29 < n < 0 ->
    exists s1,
      SlotsGo.extend n s = (Ret tt, s1) /\
      data s1 = data s /\ head s1 = head s /\
      size s1 = wrap32 (size s + 8 * n) /\
      size s1 <> wrap32 (bits (data s1)).
Proof.
  intros s n Hreach Hn.
  destruct (reachableGo_inv s Hreach) as [(_ & _ & Hsz) _].
  rewrite extend_eq. eexists. split; [reflexivity|]. simpl.
  replace (Z.to_nat n) with 0%nat by lia. simpl. rewrite app_nil_r.
  split; [reflexivity|]. split; [reflexivity|].
  assert (E : wrap32 (size s + wrap32 (wrap32 n * 8)) = wrap32 (size s + 8 * n)).
  { unfold wrap32. rewrite Zmult_mod_idemp_l, Zplus_mod_idemp_r. f_equal. lia. }
  rewrite E. split; [reflexivity|].
  rewrite Hsz. unfold wrap32. rewrite Zplus_mod_idemp_l.
  pose proof (bits_nonneg (data s)) as Hb. revert Hb. generalize (bits (data s)).
  intros z Hz. change (2 ^ 29) with 536870912 in Hn.
  change (2 ^ 32) with 4294967296.
  Z.div_mod_to_equations. lia.
Qed.

Lemma extend_negative_breaks_size_witness :
  exists s1,
    SlotsGo.extend (-1) one_used = (Ret tt, s1) /\
    data s1 = data one_used /\ head s1 = head one_used /\
    size s1 = wrap32 (size one_used + 8 * -1) /\
    size s1 <> wrap32 (bits (data s1)).
Proof.
  apply (extend_negative_breaks_size one_used (-1)).
  - exact one_used_reachable.
  - lia.
Defined.

(** ** What [Next] returns *)

(** X8. In the variant of slots.go, for every reachable state whose
    bitvector has fewer than [2^32] slots, [Next] returns the lowest free
    slot of the state it leaves and makes it the head: the slot is free and
    every slot below it is used.  It leaves the bitvector and the size alone
    when it finds the slot below the size; it grows by one byte exactly when
    no slot below the size is free, and then returns the old size. *)
Theorem Next_lowest_free :
  forall s,
    SlotsGo.reachable s -> bits (data s) < 2 ^ 32 ->
    exists a s1,
      SlotsGo.Next s = (Ret a, s1) /\ head s1 = a /\ file s1 = file s /\
      slot_free (data s1) a = true /\
      (forall i, 0 <= i < a -> slot_used (data s1) i = true) /\
      (a < size s /\ data s1 = data s /\ size s1 = size s \/
       none_free s /\ a = size s /\ data s1 = data s ++ [255] /\
       size s1 = wrap32 (size s + 8)).
Proof.
  intros s Hreach Hfit.
  destruct (reachableGo_inv s Hreach) as [Hshape Hbelow].
  pose proof (shapeGo_room s Hshape) as Hroom.
  destruct Hshape as (Hhd & Hu & Hsz).
  assert (Hsize : size s = bits (data s)).
  { rewrite Hsz. unfold wrap32. apply Z.mod_small.
    pose proof (bits_nonneg (data s)). lia. }
  rewrite Next_eq.
  pose proof (scan_from_head_spec s ltac:(lia)) as H.
  destruct (scan_from_head_in_range s ltac:(lia) Hroom) as [r Hr].
  rewrite Hr in *. destruct r as [j|].
  - destruct H as (_ & Hj & Hfree & Hb).
    eexists. eexists. split; [reflexivity|]. simpl.
    split; [reflexivity|]. split; [reflexivity|]. split; [exact Hfree|].
    split; [|left; repeat split; lia].
    intros i Hi. destruct (Z.lt_ge_cases i (head s)); [apply Hbelow | apply Hb]; lia.
  - destruct H as (_ & Hb).
    rewrite wrap32_grown by (unfold is_uint32; lia).
    assert (Hnone : none_free s).
    { intros i Hi. destruct (Z.lt_ge_cases i (head s)); [apply Hbelow | apply Hb]; lia. }
    eexists. eexists. split; [reflexivity|]. simpl.
    split; [reflexivity|]. split; [reflexivity|]. split; [|split].
    + rewrite Hsize. apply (slot_free_app_ones (data s) 1). lia.
    + intros i Hi. apply slot_used_app. apply Hnone. exact Hi.
    + right. repeat split. exact Hnone.
Qed.

Lemma Next_lowest_free_witness :
  exists a s1,
    SlotsGo.Next one_used = (Ret a, s1) /\ head s1 = a /\ file s1 = file one_used /\
    slot_free (data s1) a = true /\
    (forall i, 0 <= i < a -> slot_used (data s1) i = true) /\
    (a < size one_used /\ data s1 = data one_used /\ size s1 = size one_used \/
     none_free one_used /\ a = size one_used /\ data s1 = data one_used ++ [255] /\
     size s1 = wrap32 (size one_used + 8)).
Proof.
  apply (Next_lowest_free one_used).
  - exact one_used_reachable.
  - reflexivity.
Defined.

(** X9. In the variant of slots.go, for every reachable state, after [Free]
    of a slot below the size that is not above the head, [Next] returns that
    very slot, without growing: a released hole is handed out first. *)
Theorem Free_then_Next :
  forall s slot,
    SlotsGo.reachable s -> 0 <= slot < size s -> slot <= head s ->
    exists s1 s2,
      SlotsGo.Free slot s = (Ret tt, s1) /\
      SlotsGo.Next s1 = (Ret slot, s2) /\
      s2 = s1 /\ head s1 = slot /\ size s1 = size s.
Proof.
  intros s slot Hreach Hslot Hle.
  pose proof (shapeGo_room s (proj1 (reachableGo_inv s Hreach))) as Hroom.
  destruct (release_spec s slot ltac:(lia))
    as (s1 & Hpush & Hfree & Hhead & Hsize & _).
  assert (Hh1 : head s1 = slot).
  { rewrite Hhead. unfold lowered. destruct (Z.ltb_spec slot (head s)); lia. }
  exists s1, s1. split; [exact Hpush|].
  split; [|split; [reflexivity | split; assumption]].
  rewrite Next_eq. unfold scan_from_head. rewrite Hh1, Hsize.
  rewrite scan_found_first; [| exact Hfree | lia].
  rewrite <- Hh1 at 2. destruct s1; reflexivity.
Qed.

Lemma Free_then_Next_witness :
  exists s1 s2,
    SlotsGo.Free 0 one_used = (Ret tt, s1) /\
    SlotsGo.Next s1 = (Ret 0, s2) /\
    s2 = s1 /\ head s1 = 0 /\ size s1 = size one_used.
Proof.
  apply (Free_then_Next one_used 0).
  - exact one_used_reachable.
  - simpl. lia.
  - simpl. lia.
Defined.

(** ** Padding at load *)

(** X10. In the variant with a configured size, [load] on a fresh
    allocator with a working store returns with the bytes of the store
    followed by bytes with all slots free; none is appended when the store
    has room for the configured size, and otherwise just enough for the
    byte slice to have room for the size (fewer than 8 slots more). *)
Theorem load_pads_with_free :
  forall f sz,
    is_uint32 sz -> failing f = false ->
    exists k h,
      Part000.load (Part000.newSlots f sz)
      = (Ret tt, mkSlots (durable f ++ replicate k 255) h sz f) /\
      (sz <= bits (durable f) -> k = 0%nat) /\
      (bits (durable f) < sz ->
       sz <= bits (durable f) + 8 * Z.of_nat k < sz + 8) /\
      (forall i, bits (durable f) <= i < bits (durable f) + 8 * Z.of_nat k ->
                 slot_free (durable f ++ replicate k 255) i = true).
Proof.
  intros f sz Hsz Hok.
  exists (Part000.pad_count (Z.of_nat (length (durable f)) * 8) sz).
  rewrite load_eq, Hok. simpl.
  set (k := Part000.pad_count _ _).
  set (s0 := mkSlots _ 0 sz f).
  assert (Hk : 8 * ((sz - Z.of_nat (length (durable f)) * 8 + 7) / 8)
               <= sz - Z.of_nat (length (durable f)) * 8 + 7
               < 8 * ((sz - Z.of_nat (length (durable f)) * 8 + 7) / 8) + 8)
    by (Z.div_mod_to_equations; lia).
  assert (Hroom : size s0 <= bits (data s0)).
  { unfold s0, bits; simpl. rewrite length_app, length_replicate.
    unfold k, Part000.pad_count. lia. }
  rewrite next_eq.
  destruct (scan_from_head_in_range s0 ltac:(simpl; lia) Hroom) as [r Hr].
  rewrite Hr.
  exists (match r with Some i => i | None => sz end).
  split; [destruct r; reflexivity|].
  unfold bits, k, Part000.pad_count.
  split; [intros Hle; lia|]. split; [intros Hlt; lia|].
  intros i Hi. apply slot_free_app_ones. unfold bits. exact Hi.
Qed.

Lemma load_pads_with_free_witness :
  exists k h,
    Part000.load (Part000.newSlots one_used_file 12)
    = (Ret tt, mkSlots (durable one_used_file ++ replicate k 255) h 12 one_used_file) /\
    (12 <= bits (durable one_used_file) -> k = 0%nat) /\
    (bits (durable one_used_file) < 12 ->
     12 <= bits (durable one_used_file) + 8 * Z.of_nat k < 12 + 8) /\
    (forall i, bits (durable one_used_file) <= i
               < bits (durable one_used_file) + 8 * Z.of_nat k ->
               slot_free (durable one_used_file ++ replicate k 255) i = true).
Proof.
  apply (load_pads_with_free one_used_file 12).
  - unfold is_uint32. lia.
  - reflexivity.
Defined.

(** ** Order of allocation *)

(** [Next] in a reachable state whose bitvector has fewer than [2^32]
    slots, by cases. *)
Lemma Next_reachable_cases s :
  SlotsGo.reachable s -> bits (data s) < 2 ^ 32 ->
  exists a s1,
    SlotsGo.Next s = (Ret a, s1) /\ head s1 = a /\ head s <= a /\
    0 <= a < bits (data s1) /\ bits (data s1) <= bits (data s) + 8 /\
    (forall i, 0 <= i < a -> slot_used (data s1) i = true).
Proof.
  intros Hreach Hfit.
  destruct (reachableGo_inv s Hreach) as [Hshape Hbelow].
  pose proof (shapeGo_room s Hshape) as Hroom.
  destruct Hshape as (Hhd & Hu & Hsz).
  assert (Hsize : size s = bits (data s)).
  { rewrite Hsz. unfold wrap32. apply Z.mod_small.
    pose proof (bits_nonneg (data s)). lia. }
  rewrite Next_eq.
  pose proof (scan_from_head_spec s ltac:(lia)) as H.
  destruct (scan_from_head_in_range s ltac:(lia) Hroom) as [r Hr].
  rewrite Hr in *. destruct r as [j|].
  - destruct H as (_ & Hj & Hfree & Hb).
    eexists. eexists. split; [reflexivity|]. simpl.
    split; [reflexivity|]. split; [lia|]. split; [lia|]. split; [lia|].
    intros i Hi. destruct (Z.lt_ge_cases i (head s)); [apply Hbelow | apply Hb]; lia.
  - destruct H as (_ & Hb).
    rewrite wrap32_grown by (unfold is_uint32; lia).
    eexists. eexists. split; [reflexivity|]. simpl. rewrite bits_app.
    change (bits [255]) with 8.
    split; [reflexivity|]. split; [lia|]. split; [lia|]. split; [lia|].
    intros i Hi. apply slot_used_app.
    destruct (Z.lt_ge_cases i (head s)); [apply Hbelow | apply Hb]; lia.
Qed.

(** X11. In the variant of slots.go, for every reachable state whose
    bitvector, grown by one byte, has fewer than [2^32] slots: [Next], [Use]
    of its result and [Next] again all return, the second result is above
    the first, and every slot below the second result is used.  Slots are
    handed out in increasing order and no free slot is left behind. *)
Theorem allocation_order :
  forall s,
    SlotsGo.reachable s -> bits (data s) + 8 < 2 ^ 32 ->
    exists a1 s1 s2 a2 s3,
      SlotsGo.Next s = (Ret a1, s1) /\ SlotsGo.Use a1 s1 = (Ret tt, s2) /\
      SlotsGo.Next s2 = (Ret a2, s3) /\
      a1 < a2 /\
      (forall i, 0 <= i < a2 -> slot_used (data s3) i = true).
Proof.
  intros s Hreach Hfit.
  destruct (Next_reachable_cases s Hreach ltac:(lia))
    as (a1 & s1 & H1 & Hh1 & _ & Ha1 & Hb1 & _).
  assert (Hr1 : SlotsGo.reachable s1) by (eapply SlotsGo.reach_Next; eauto).
  destruct (lookup_byte_in_range (data s1) a1 Ha1) as [b Hb].
  assert (H2 : SlotsGo.Use a1 s1
               = (Ret tt, mkSlots (<[Z.to_nat (a1 / 8) := clear_bit b (a1 mod 8)]> (data s1))
                                  (head s1) (size s1) (file s1)))
    by (rewrite Use_eq, Hb; reflexivity).
  set (s2 := mkSlots _ _ _ _) in H2.
  assert (Ha32 : is_uint32 a1).
  { destruct (reachableGo_inv s1 Hr1) as [(_ & Hu & _) _]. rewrite <- Hh1. exact Hu. }
  assert (Hr2 : SlotsGo.reachable s2) by (eapply SlotsGo.reach_Use; eauto).
  assert (Hbits2 : bits (data s2) = bits (data s1))
    by (unfold s2, bits; simpl; rewrite length_insert; reflexivity).
  destruct (Next_reachable_cases s2 Hr2 ltac:(lia))
    as (a2 & s3 & H3 & Hh3 & Hge & Ha2 & _ & Hbelow3).
  exists a1, s1, s2, a2, s3.
  split; [exact H1|]. split; [exact H2|]. split; [exact H3|].
  split; [|exact Hbelow3].
  assert (Hne : a1 <> a2).
  { apply (Next_Use_Next_differ s a1 s1 s2 a2 s3); try assumption.
    apply shapeGo_fields. apply (reachableGo_inv s Hreach). }
  unfold s2 in Hge; simpl in Hge. lia.
Qed.

Lemma allocation_order_witness :
  exists a1 s1 s2 a2 s3,
    SlotsGo.Next one_used = (Ret a1, s1) /\ SlotsGo.Use a1 s1 = (Ret tt, s2) /\
    SlotsGo.Next s2 = (Ret a2, s3) /\
    a1 < a2 /\
    (forall i, 0 <= i < a2 -> slot_used (data s3) i = true).
Proof.
  apply (allocation_order one_used).
  - exact one_used_reachable.
  - reflexivity.
Defined.

(** ** Persisting the whole state *)

(** [next] returns [t] when the slots from the head up to [t] are used and
    [t] is a free slot below the size, or the size. *)
Lemma next_finds s t :
  0 <= head s <= t -> t <= size s -> size s <= bits (data s) ->
  (forall k, head s <= k < t -> slot_used (data s) k = true) ->
  (t < size s -> slot_free (data s) t = true) ->
  Part000.next s = (Ret t, s).
Proof.
  intros Hh Ht Hroom Hused Hfree.
  pose proof (next_spec s ltac:(lia)) as Hn.
  rewrite next_eq in *.
  destruct (scan_from_head_in_range s ltac:(lia) Hroom) as [q Hq].
  rewrite Hq in *.
  assert (Hres : match q with Some j => j | None => size s end = t).
  { destruct q as [j|]; destruct Hn as (_ & Hcase & Hb).
    - destruct (Z.lt_trichotomy j t) as [Hlt|[Heq|Hgt]]; [|exact Heq|].
      + destruct Hcase as [[Hj Hfj]|Hj]; [|lia].
        rewrite (slot_used_not_free _ _ (Hused j ltac:(lia))) in Hfj. discriminate.
      + assert (Hts : t < size s) by (destruct Hcase as [[Hj _]|Hj]; lia).
        specialize (Hfree Hts).
        rewrite (slot_used_not_free _ _ (Hb t ltac:(lia))) in Hfree. discriminate.
    - destruct (Z.lt_ge_cases t (size s)) as [Hts|Hge]; [|lia].
      specialize (Hfree Hts).
      rewrite (slot_used_not_free _ _ (Hb t ltac:(lia))) in Hfree. discriminate. }
  destruct q; rewrite Hres; reflexivity.
Qed.

(** X12. In the variant with a configured size, for every reachable state
    whose store works, [save] returns, and [load] of a fresh allocator of
    the same size over the store it wrote gives the whole saved state back:
    the same bytes, the same size and the same head. *)
Theorem save_load_restores :
  forall f sz s,
    Part000.reachable f sz s -> failing (file s) = false ->
    exists s1,
      Part000.save s = (Ret tt, s1) /\
      data s1 = data s /\ head s1 = head s /\ size s1 = size s /\
      Part000.load (Part000.newSlots (file s1) (size s)) = (Ret tt, s1).
Proof.
  intros f sz s Hreach Hok.
  destruct (reachable000_inv f sz s Hreach) as [Hshape Hbelow].
  pose proof (shape000_room f sz s Hshape) as Hroom.
  destruct Hshape as (Hsz & Hu & Hhd & _).
  rewrite save_eq, Hok. eexists. split; [reflexivity|]. simpl.
  split; [reflexivity|]. split; [reflexivity|]. split; [reflexivity|].
  rewrite load_eq. simpl.
  assert (Hp : Part000.pad_count (Z.of_nat (length (data s)) * 8) (size s) = 0%nat).
  { unfold Part000.pad_count, bits in *.
    assert ((size s - Z.of_nat (length (data s)) * 8 + 7) / 8 <= 0)
      by (Z.div_mod_to_equations; lia).
    lia. }
  rewrite Hp. simpl. rewrite app_nil_r.
  rewrite (next_finds _ (head s)); simpl; try lia; try reflexivity.
  - intros k Hk. apply Hbelow. lia.
  - intros Hlt. apply (reachable000_head_free f sz s Hreach Hlt).
Qed.

Lemma save_load_restores_witness :
  exists s1,
    Part000.save three_taken = (Ret tt, s1) /\
    data s1 = data three_taken /\ head s1 = head three_taken /\
    size s1 = size three_taken /\
    Part000.load (Part000.newSlots (file s1) (size three_taken)) = (Ret tt, s1).
Proof.
  apply (save_load_restores empty_file 16 three_taken).
  - exact three_taken_reachable.
  - reflexivity.
Defined.

(** * The in-memory store *)

(** ** Key strings *)

Lemma append_assoc (a b c : string) : (a +:+ b) +:+ c = a +:+ (b +:+ c).
Proof.
  induction a as [|x a IH]; [reflexivity|].
  change (String x ((a +:+ b) +:+ c) = String x (a +:+ (b +:+ c))).
  rewrite IH. reflexivity.
Qed.

Lemma cut_prefix_app p s : InMem.cut_prefix p (p +:+ s) = Some s.
Proof.
  induction p as [|c p IH]; simpl; [reflexivity|].
  rewrite Ascii.eqb_refl. exact IH.
Qed.

Lemma cut_prefix_Some p s rest : InMem.cut_prefix p s = Some rest -> s = p +:+ rest.
Proof.
  revert s. induction p as [|c p IH]; intros s; simpl.
  - intros [= ->]. reflexivity.
  - destruct s as [|d s]; [discriminate|].
    destruct (Ascii.eqb_spec c d) as [->|]; [|discriminate].
    intros H. rewrite (IH s H). reflexivity.
Qed.

Lemma getKeyString_eq k :
  InMem.getKeyString k = InMem.Namespace k +:+ "/" +:+ InMem.ID k.
Proof. reflexivity. Qed.

(** X13. The id is recovered from the key string: cutting the namespace and
    the separator off the key string of a key gives its id, whatever the
    namespace and the id are. *)
Theorem idFromKey_getKeyString :
  forall k, InMem.idFromKey (InMem.Namespace k) (InMem.getKeyString k) = InMem.ID k.
Proof.
  intros k. unfold InMem.idFromKey, InMem.TrimPrefix, InMem.separator.
  rewrite getKeyString_eq, <- append_assoc, cut_prefix_app. reflexivity.
Qed.

Lemma append_cons c (a b : string) : String c a +:+ b = String c (a +:+ b).
Proof. reflexivity. Qed.

Lemma append_empty (b : string) : "" +:+ b = b.
Proof. reflexivity. Qed.

Lemma separator_char : InMem.separator = String InMem.sep_char "".
Proof. reflexivity. Qed.

Lemma key_string_inj_aux ns1 : forall ns2 id1 id2,
  InMem.sep_free ns1 = true -> InMem.sep_free ns2 = true ->
  ns1 +:+ InMem.separator +:+ id1 = ns2 +:+ InMem.separator +:+ id2 ->
  ns1 = ns2 /\ id1 = id2.
Proof.
  rewrite separator_char.
  induction ns1 as [|c ns1 IH]; intros ns2 id1 id2 H1 H2 E.
  - destruct ns2 as [|d ns2]; rewrite ?append_cons, ?append_empty in E.
    + injection E as ->. split; reflexivity.
    + injection E as <- _. simpl in H2. rewrite ?Ascii.eqb_refl in H2. discriminate H2.
  - destruct ns2 as [|d ns2]; rewrite ?append_cons, ?append_empty in E.
    + injection E as -> _. simpl in H1. rewrite ?Ascii.eqb_refl in H1. discriminate H1.
    + injection E as -> E. simpl in H1, H2. apply andb_prop in H1, H2.
      destruct (IH ns2 id1 id2 (proj2 H1) (proj2 H2) E) as [-> ->].
      split; reflexivity.
Qed.

(** X14. Keys whose namespaces do not contain the separator have different
    key strings unless they are the same key. *)
Theorem getKeyString_inj :
  forall k1 k2,
    InMem.sep_free (InMem.Namespace k1) = true ->
    InMem.sep_free (InMem.Namespace k2) = true ->
    InMem.getKeyString k1 = InMem.getKeyString k2 ->
    k1 = k2.
Proof.
  intros [ns1 id1] [ns2 id2] H1 H2 E. rewrite !getKeyString_eq in E. simpl in *.
  destruct (key_string_inj_aux ns1 ns2 id1 id2 H1 H2 E) as [-> ->]. reflexivity.
Qed.

Lemma getKeyString_inj_witness :
  InMem.key_of InMem.chunk_a = InMem.mkKey "chunk" "a".
Proof.
  apply (getKeyString_inj (InMem.key_of InMem.chunk_a) (InMem.mkKey "chunk" "a"));
    reflexivity.
Defined.

(** With a separator in the namespace two different keys can share a key
    string. *)
Example key_strings_collide :
  InMem.getKeyString (InMem.mkKey "a/b" "c") = InMem.getKeyString (InMem.mkKey "a" "b/c").
Proof. reflexivity. Qed.

(** ** Store methods *)

(** X15. [Put] of an item that marshals returns nil; afterwards [Has] finds
    its key and [GetSize] gives the length of the marshalled bytes, and keys
    with another key string are found, and sized, as before.  [Put] of an
    item that fails to marshal returns an error and leaves the store
    unchanged. *)
Theorem Put_then_Has :
  forall (i : InMem.Item) (st : InMem.Store),
    (forall val,
        InMem.Marshal i = Some val ->
        exists st',
          InMem.Put i st = (None, st') /\
          InMem.Has (InMem.key_of i) st' = true /\
          InMem.GetSize (InMem.key_of i) st' = inr (length val) /\
          forall k, InMem.getKeyString k <> InMem.getKeyString (InMem.key_of i) ->
                    InMem.Has k st' = InMem.Has k st /\
                    InMem.GetSize k st' = InMem.GetSize k st) /\
    (InMem.Marshal i = None -> InMem.Put i st = (Some InMem.ErrMarshal, st)).
Proof.
  intros i st. split.
  - intros val Hm. unfold InMem.Put. rewrite Hm. eexists. split; [reflexivity|].
    unfold InMem.Has, InMem.GetSize. rewrite !lookup_insert_eq.
    split; [reflexivity|]. split; [reflexivity|].
    intros k Hne. rewrite !lookup_insert_ne by congruence. split; reflexivity.
  - intros Hm. unfold InMem.Put. rewrite Hm. reflexivity.
Qed.

Lemma Put_then_Has_witness :
  (exists st',
      InMem.Put InMem.chunk_a ∅ = (None, st') /\
      InMem.Has (InMem.key_of InMem.chunk_a) st' = true /\
      InMem.GetSize (InMem.key_of InMem.chunk_a) st' = inr (length [1; 2; 3]) /\
      forall k, InMem.getKeyString k <> InMem.getKeyString (InMem.key_of InMem.chunk_a) ->
                InMem.Has k st' = InMem.Has k ∅ /\
                InMem.GetSize k st' = InMem.GetSize k ∅) /\
  InMem.Put InMem.broken_c ∅ = (Some InMem.ErrMarshal, ∅).
Proof.
  split.
  - apply (proj1 (Put_then_Has InMem.chunk_a ∅) [1; 2; 3]). reflexivity.
  - apply (proj2 (Put_then_Has InMem.broken_c ∅)). reflexivity.
Defined.

(** X16. [Delete] of an item whose key is stored returns nil and removes
    that key only: [Has] no longer finds it and [GetSize] answers
    [ErrNotFound], other key strings are untouched.  [Delete] of an item
    whose key is not stored returns [ErrNotFound] and leaves the store
    unchanged. *)
Theorem Delete_semantics :
  forall (i : InMem.Item) (st : InMem.Store),
    (InMem.Has (InMem.key_of i) st = true ->
     exists st',
       InMem.Delete i st = (None, st') /\
       InMem.Has (InMem.key_of i) st' = false /\
       InMem.GetSize (InMem.key_of i) st' = inl InMem.ErrNotFound /\
       forall k, InMem.getKeyString k <> InMem.getKeyString (InMem.key_of i) ->
                 st' !! InMem.getKeyString k = st !! InMem.getKeyString k) /\
    (InMem.Has (InMem.key_of i) st = false ->
     InMem.Delete i st = (Some InMem.ErrNotFound, st)).
Proof.
  intros i st. unfold InMem.Has, InMem.Delete, InMem.GetSize.
  destruct (st !! InMem.getKeyString (InMem.key_of i)) as [val|] eqn:E; split;
    try discriminate.
  - intros _. eexists. split; [reflexivity|].
    rewrite !lookup_delete_eq. split; [reflexivity|]. split; [reflexivity|].
    intros k Hne. apply lookup_delete_ne. congruence.
  - intros _. reflexivity.
Qed.

Lemma Delete_semantics_witness :
  (exists st',
      InMem.Delete InMem.chunk_a (<["chunk/a" := [1; 2; 3]]> ∅) = (None, st') /\
      InMem.Has (InMem.key_of InMem.chunk_a) st' = false /\
      InMem.GetSize (InMem.key_of InMem.chunk_a) st' = inl InMem.ErrNotFound /\
      forall k, InMem.getKeyString k <> InMem.getKeyString (InMem.key_of InMem.chunk_a) ->
                st' !! InMem.getKeyString k
                = (<["chunk/a" := [1; 2; 3]]> ∅ : InMem.Store) !! InMem.getKeyString k) /\
  InMem.Delete InMem.chunk_a ∅ = (Some InMem.ErrNotFound, ∅).
Proof.
  split.
  - apply (proj1 (Delete_semantics InMem.chunk_a (<["chunk/a" := [1; 2; 3]]> ∅))).
    reflexivity.
  - apply (proj2 (Delete_semantics InMem.chunk_a ∅)). reflexivity.
Defined.

(** X17. [Put] of an item that marshals followed by [Delete] of the same
    item gives back the store, when its key string was not stored before. *)
Theorem Put_then_Delete :
  forall (i : InMem.Item) (st : InMem.Store) val,
    InMem.Marshal i = Some val -> InMem.Has (InMem.key_of i) st = false ->
    exists st',
      InMem.Put i st = (None, st') /\ InMem.Delete i st' = (None, st).
Proof.
  intros i st val Hm Hnew. unfold InMem.Put. rewrite Hm.
  eexists. split; [reflexivity|].
  unfold InMem.Delete. rewrite lookup_insert_eq. f_equal.
  apply delete_insert_id. unfold InMem.Has in Hnew.
  destruct (st !! InMem.getKeyString (InMem.key_of i)); [discriminate | reflexivity].
Qed.

Lemma Put_then_Delete_witness :
  exists st',
    InMem.Put InMem.chunk_a ∅ = (None, st') /\ InMem.Delete InMem.chunk_a st' = (None, ∅).
Proof.
  apply (Put_then_Delete InMem.chunk_a ∅ [1; 2; 3]); reflexivity.
Defined.

(** ** Counting *)

Lemma HasPrefix_own_namespace k :
  InMem.HasPrefix (InMem.getKeyString k) (InMem.Namespace k) = true.
Proof.
  unfold InMem.HasPrefix. rewrite getKeyString_eq, cut_prefix_app. reflexivity.
Qed.

Lemma count_insert_new (P : string * list Z -> Prop) `{!forall x, Decision (P x)}
      (m : InMem.Store) key v :
  m !! key = None ->
  length (filter P (map_to_list (<[key := v]> m)))
  = length (filter P ((key, v) :: map_to_list m)).
Proof.
  intros Hnew. apply Permutation_length. apply filter_Permutation.
  apply map_to_list_insert. exact Hnew.
Qed.

Lemma count_cons ns key (v : list Z) (l : list (string * list Z)) :
  length (filter (fun kv => InMem.HasPrefix kv.1 ns = true) ((key, v) :: l))
  = if InMem.HasPrefix key ns
    then S (length (filter (fun kv => InMem.HasPrefix kv.1 ns = true) l))
    else length (filter (fun kv => InMem.HasPrefix kv.1 ns = true) l).
Proof.
  rewrite filter_cons. simpl.
  destruct (decide (InMem.HasPrefix key ns = true)) as [Hp|Hp].
  - rewrite Hp. reflexivity.
  - destruct (InMem.HasPrefix key ns); [contradiction | reflexivity].
Qed.

(** X18. [Count] after a [Put] that succeeds.  When the key string was
    stored already the count of every namespace is unchanged.  When it is
    new, the count rises by one for every key whose namespace is a prefix of
    the new key string - the item's own namespace among them, and also any
    shorter namespace the key string starts with - and is unchanged for all
    others. *)
Theorem Count_after_Put :
  forall (i : InMem.Item) (st : InMem.Store) val k,
    InMem.Marshal i = Some val ->
    InMem.Count k (InMem.Put i st).2
    = (if InMem.Has (InMem.key_of i) st then InMem.Count k st
       else if InMem.HasPrefix (InMem.getKeyString (InMem.key_of i)) (InMem.Namespace k)
            then S (InMem.Count k st)
            else InMem.Count k st) /\
    InMem.HasPrefix (InMem.getKeyString (InMem.key_of i))
                    (InMem.Namespace (InMem.key_of i)) = true.
Proof.
  intros i st val k Hm. split; [|apply HasPrefix_own_namespace].
  unfold InMem.Put, InMem.Has, InMem.Count. rewrite Hm. simpl.
  set (key := InMem.getKeyString (InMem.key_of i)).
  destruct (st !! key) as [old|] eqn:E.
  - rewrite <- (insert_delete_id st key old E) at 2.
    rewrite <- (insert_delete_eq st key val).
    rewrite !count_insert_new by apply lookup_delete_eq.
    rewrite !count_cons. reflexivity.
  - rewrite count_insert_new by exact E. apply count_cons.
Qed.

Lemma Count_after_Put_witness :
  InMem.Count (InMem.mkKey "chu" "") (InMem.Put InMem.chunk_a ∅).2
  = (if InMem.Has (InMem.key_of InMem.chunk_a) ∅
     then InMem.Count (InMem.mkKey "chu" "") ∅
     else if InMem.HasPrefix (InMem.getKeyString (InMem.key_of InMem.chunk_a)) "chu"
          then S (InMem.Count (InMem.mkKey "chu" "") ∅)
          else InMem.Count (InMem.mkKey "chu" "") ∅) /\
  InMem.HasPrefix (InMem.getKeyString (InMem.key_of InMem.chunk_a))
                  (InMem.Namespace (InMem.key_of InMem.chunk_a)) = true.
Proof.
  apply (Count_after_Put InMem.chunk_a ∅ [1; 2; 3] (InMem.mkKey "chu" "")).
  reflexivity.
Defined.

(** ** Batches *)

(** The loop of [Delete] passes over items with another id. *)
Lemma delete_loop_skip id n : forall index arr m,
  (forall j rem, (index <= j < index + n)%nat -> arr !! j = Some rem ->
                 InMem.ID (InMem.key_of rem) <> id) ->
  (index + n <= length arr)%nat ->
  InMem.delete_loop n index id arr m = Some (arr, m).
Proof.
  induction n as [|n IH]; intros index arr m Hno Hlen; simpl; [reflexivity|].
  destruct (lookup_lt_is_Some_2 arr index ltac:(lia)) as [rem Hrem].
  rewrite Hrem.
  destruct (String.eqb_spec (InMem.ID (InMem.key_of rem)) id) as [Heq|Hne].
  - exfalso. apply (Hno index rem); [lia | exact Hrem | exact Heq].
  - apply IH; [|lia]. intros j r Hj. apply Hno. lia.
Qed.

(** The loop of [Delete] in two parts. *)
Lemma delete_loop_split id a : forall b index arr m,
  InMem.delete_loop (a + b) index id arr m
  = match InMem.delete_loop a index id arr m with
    | Some (arr', m') => InMem.delete_loop b (index + a) id arr' m'
    | None => None
    end.
Proof.
  induction a as [|a IH]; intros b index arr m; simpl.
  - rewrite Nat.add_0_r. reflexivity.
  - destruct (arr !! index) as [rem|]; [|reflexivity].
    destruct (String.eqb (InMem.ID (InMem.key_of rem)) id).
    + destruct (index <? m)%nat; [|reflexivity].
      rewrite IH. replace (S index + a)%nat with (index + S a)%nat by lia. reflexivity.
    + rewrite IH. replace (S index + a)%nat with (index + S a)%nat by lia. reflexivity.
Qed.

(** Removing the item after [l1] from a slice that ends after [l2]: the
    items of [l2] move down and the last place keeps its item. *)
Lemma remove_at_middle (l1 l2 : list InMem.Item) x :
  InMem.remove_at (length l1) (l1 ++ x :: l2) (length (l1 ++ x :: l2))
  = l1 ++ l2 ++ drop (length l2) (x :: l2).
Proof.
  unfold InMem.remove_at. rewrite length_app. simpl.
  rewrite take_app_length.
  replace (l1 ++ x :: l2) with ((l1 ++ [x]) ++ l2) at 1 by (rewrite <- app_assoc; reflexivity).
  replace (S (length l1)) with (length (l1 ++ [x])) by (rewrite length_app; simpl; lia).
  rewrite drop_app_length.
  replace (length l1 + S (length l2) - 1 - length l1)%nat with (length l2) by lia.
  rewrite take_ge by lia.
  replace (length l1 + S (length l2) - 1)%nat with (length l1 + length l2)%nat by lia.
  rewrite drop_app_add'; reflexivity.
Qed.

Lemma drop_last (l : list InMem.Item) x z :
  drop (length (l ++ [z])) (x :: l ++ [z]) = [z].
Proof.
  replace (x :: l ++ [z]) with ((x :: l) ++ [z]) by reflexivity.
  rewrite length_app. simpl.
  replace (length l + 1)%nat with (length (x :: l)) by (simpl; lia).
  apply drop_app_length.
Qed.

Lemma lookup_in_tail (l1 l : list InMem.Item) j rem (P : InMem.Item -> Prop) :
  Forall P l -> (length l1 <= j)%nat -> (l1 ++ l) !! j = Some rem -> P rem.
Proof.
  intros Hl Hj Hrem. rewrite lookup_app_r in Hrem by exact Hj.
  rewrite Forall_lookup in Hl. exact (Hl _ _ Hrem).
Qed.

(** One iteration of the loop of [Delete] on an item with the id, inside
    the slice. *)
Lemma delete_loop_hit id n index arr m rem :
  arr !! index = Some rem -> InMem.ID (InMem.key_of rem) = id ->
  (index < m)%nat ->
  InMem.delete_loop (S n) index id arr m
  = InMem.delete_loop n (S index) id (InMem.remove_at index arr m) (m - 1).
Proof.
  intros Hrem Hid Hm. simpl. rewrite Hrem, Hid, String.eqb_refl.
  destruct (Nat.ltb_spec index m); [reflexivity | lia].
Qed.

(** The loop of [Delete] up to and including the first item with the id. *)
Lemma delete_loop_first (id : string) (l1 l2 : list InMem.Item) x :
  Forall (fun it => ~ InMem.has_id id it) l1 -> InMem.has_id id x ->
  InMem.delete_loop (length (l1 ++ x :: l2)) 0 id (l1 ++ x :: l2) (length (l1 ++ x :: l2))
  = InMem.delete_loop (length l2) (S (length l1)) id
      (l1 ++ l2 ++ drop (length l2) (x :: l2)) (length l1 + length l2).
Proof.
  intros H1 Hx.
  assert (Hlen : length (l1 ++ x :: l2) = (length l1 + S (length l2))%nat)
    by (rewrite length_app; reflexivity).
  rewrite Hlen at 1. rewrite delete_loop_split.
  rewrite delete_loop_skip.
  - simpl (0 + length l1)%nat.
    rewrite (delete_loop_hit id (length l2) (length l1) _ _ x);
      [| apply list_lookup_middle; reflexivity | exact Hx | lia].
    rewrite remove_at_middle. f_equal. lia.
  - intros j rem Hj Hrem. rewrite lookup_app_l in Hrem by lia.
    rewrite Forall_lookup in H1. exact (H1 _ _ Hrem).
  - lia.
Qed.

(** X19. [Delete] on a batch with a live context.  When no item has the id
    of the key the items are unchanged.  When exactly one item has it, that
    item is removed and the others keep their order.  Only the id is
    compared: the namespace of the key plays no part. *)
Theorem Batch_Delete_one :
  forall (b : InMem.Batch) (k : InMem.Key),
    InMem.ctx_err b = None ->
    (Forall (fun it => ~ InMem.has_id (InMem.ID k) it) (InMem.items b) ->
     InMem.Batch_Delete k b = InMem.Ok b) /\
    (forall l1 x l2,
        InMem.items b = l1 ++ x :: l2 ->
        InMem.has_id (InMem.ID k) x ->
        Forall (fun it => ~ InMem.has_id (InMem.ID k) it) l1 ->
        Forall (fun it => ~ InMem.has_id (InMem.ID k) it) l2 ->
        InMem.Batch_Delete k b
        = InMem.Ok (InMem.mkBatch None (l1 ++ l2) (InMem.store_of b))).
Proof.
  intros b k Hctx. unfold InMem.Batch_Delete. rewrite Hctx. split.
  - intros Hno. rewrite delete_loop_skip.
    + rewrite take_ge by lia. destruct b; simpl in *; subst; reflexivity.
    + intros j rem _ Hrem. rewrite Forall_lookup in Hno. exact (Hno _ _ Hrem).
    + lia.
  - intros l1 x l2 Hitems Hx H1 H2. rewrite Hitems.
    rewrite (delete_loop_first _ l1 l2 x H1 Hx).
    destruct (decide (l2 = [])) as [->|Hne].
    + simpl. rewrite Nat.add_0_r, take_app_length, app_nil_r. reflexivity.
    + destruct (exists_last Hne) as (l2' & z & ->).
      rewrite drop_last.
      rewrite delete_loop_skip.
      * replace (l1 ++ (l2' ++ [z]) ++ [z]) with ((l1 ++ l2' ++ [z]) ++ [z])
          by (rewrite <- !app_assoc; reflexivity).
        replace (length l1 + length (l2' ++ [z]))%nat with (length (l1 ++ l2' ++ [z]))
          by (rewrite !length_app; reflexivity).
        rewrite take_app_length. reflexivity.
      * intros j rem Hj Hrem.
        apply (lookup_in_tail l1 ((l2' ++ [z]) ++ [z]) j rem
                 (fun it => InMem.ID (InMem.key_of it) <> InMem.ID k));
          [| lia | exact Hrem].
        apply Forall_app. split; [exact H2|].
        apply Forall_app in H2. exact (proj2 H2).
      * rewrite ?length_app; simpl; rewrite ?length_app; simpl; lia.
Qed.

Lemma Batch_Delete_one_witness :
  InMem.Batch_Delete (InMem.mkKey "chunk" "z")
    (InMem.mkBatch None [InMem.chunk_a; InMem.chunk_b] ∅)
  = InMem.Ok (InMem.mkBatch None [InMem.chunk_a; InMem.chunk_b] ∅) /\
  InMem.Batch_Delete (InMem.mkKey "other" "a")
    (InMem.mkBatch None [InMem.chunk_b; InMem.chunk_a; InMem.broken_c] ∅)
  = InMem.Ok (InMem.mkBatch None ([InMem.chunk_b] ++ [InMem.broken_c]) ∅).
Proof.
  split.
  - apply (proj1 (Batch_Delete_one
                    (InMem.mkBatch None [InMem.chunk_a; InMem.chunk_b] ∅)
                    (InMem.mkKey "chunk" "z") eq_refl)).
    repeat constructor; discriminate.
  - apply (proj2 (Batch_Delete_one
                    (InMem.mkBatch None [InMem.chunk_b; InMem.chunk_a; InMem.broken_c] ∅)
                    (InMem.mkKey "other" "a") eq_refl)
                 [InMem.chunk_b] InMem.chunk_a [InMem.broken_c]).
    + reflexivity.
    + reflexivity.
    + repeat constructor; discriminate.
    + repeat constructor; discriminate.
Defined.

(** X20. [Delete] on a batch with a live context in which two neighbouring
    items have the id of the key, and no other item has it: the first of the
    two is removed and the second is passed over, so it stays in the batch;
    and when the two are the last items of the batch, [Delete] panics (slice
    bounds out of range). *)
Theorem Batch_Delete_neighbours :
  forall (b : InMem.Batch) (k : InMem.Key) l1 x y l2,
    InMem.ctx_err b = None ->
    InMem.items b = l1 ++ x :: y :: l2 ->
    InMem.has_id (InMem.ID k) x -> InMem.has_id (InMem.ID k) y ->
    Forall (fun it => ~ InMem.has_id (InMem.ID k) it) l1 ->
    Forall (fun it => ~ InMem.has_id (InMem.ID k) it) l2 ->
    InMem.Batch_Delete k b
    = match l2 with
      | [] => InMem.Crash
      | _ :: _ => InMem.Ok (InMem.mkBatch None (l1 ++ y :: l2) (InMem.store_of b))
      end.
Proof.
  intros b k l1 x y l2 Hctx Hitems Hx Hy H1 H2.
  unfold InMem.Batch_Delete. rewrite Hctx, Hitems.
  rewrite (delete_loop_first _ l1 (y :: l2) x H1 Hx).
  destruct (decide (l2 = [])) as [->|Hne].
  - simpl length. simpl drop.
    replace (InMem.delete_loop 1 (S (length l1)) (InMem.ID k)
               (l1 ++ [y] ++ [y]) (length l1 + 1))
      with (@None (list InMem.Item * nat)); [reflexivity|].
    simpl. replace (l1 ++ [y; y]) with ((l1 ++ [y]) ++ [y])
      by (rewrite <- app_assoc; reflexivity).
    rewrite (list_lookup_middle (l1 ++ [y]) [] y (S (length l1)))
      by (rewrite length_app; simpl; lia).
    rewrite Hy, String.eqb_refl.
    destruct (Nat.ltb_spec (S (length l1)) (length l1 + 1)); [lia | reflexivity].
  - destruct (exists_last Hne) as (l2' & z & ->).
    replace (y :: l2' ++ [z]) with ((y :: l2') ++ [z]) by reflexivity.
    rewrite drop_last.
    rewrite delete_loop_skip.
    + replace (l1 ++ ((y :: l2') ++ [z]) ++ [z]) with ((l1 ++ (y :: l2') ++ [z]) ++ [z])
        by (rewrite <- !app_assoc; reflexivity).
      replace (length l1 + length ((y :: l2') ++ [z]))%nat
        with (length (l1 ++ (y :: l2') ++ [z]))
        by (rewrite ?length_app; simpl; rewrite ?length_app; simpl; lia).
      rewrite take_app_length.
      destruct l2'; reflexivity.
    + intros j rem Hj Hrem.
      replace (l1 ++ ((y :: l2') ++ [z]) ++ [z])
        with ((l1 ++ [y]) ++ (l2' ++ [z]) ++ [z]) in Hrem
        by (rewrite <- !app_assoc; reflexivity).
      apply (lookup_in_tail (l1 ++ [y]) ((l2' ++ [z]) ++ [z]) j rem
               (fun it => InMem.ID (InMem.key_of it) <> InMem.ID k));
        [| rewrite length_app; simpl; lia | exact Hrem].
      apply Forall_app. split; [exact H2|].
      apply Forall_app in H2. exact (proj2 H2).
    + rewrite ?length_app; simpl; rewrite ?length_app; simpl; lia.
Qed.

Lemma Batch_Delete_neighbours_witness :
  InMem.Batch_Delete (InMem.mkKey "chunk" "a")
    (InMem.mkBatch None [InMem.chunk_a; InMem.pin_a] ∅)
  = InMem.Crash /\
  InMem.Batch_Delete (InMem.mkKey "chunk" "a")
    (InMem.mkBatch None [InMem.chunk_a; InMem.pin_a; InMem.chunk_b] ∅)
  = InMem.Ok (InMem.mkBatch None ([] ++ InMem.pin_a :: [InMem.chunk_b]) ∅).
Proof.
  split.
  - apply (Batch_Delete_neighbours
             (InMem.mkBatch None [InMem.chunk_a; InMem.pin_a] ∅)
             (InMem.mkKey "chunk" "a") [] InMem.chunk_a InMem.pin_a []);
      try reflexivity; constructor.
  - apply (Batch_Delete_neighbours
             (InMem.mkBatch None [InMem.chunk_a; InMem.pin_a; InMem.chunk_b] ∅)
             (InMem.mkKey "chunk" "a") [] InMem.chunk_a InMem.pin_a [InMem.chunk_b]);
      try reflexivity; repeat constructor; discriminate.
Defined.

Lemma commit_loop_app l1 l2 (st : InMem.Store) :
  InMem.commit_loop (l1 ++ l2) st = InMem.commit_loop l2 (InMem.commit_loop l1 st).
Proof.
  revert st. induction l1 as [|it l1 IH]; intros st; simpl; [reflexivity | apply IH].
Qed.

(** The loop of [Commit] leaves alone a key string that no item which
    marshals has. *)
Lemma commit_loop_other l : forall (st : InMem.Store) key,
  Forall (fun it => InMem.Marshal it = None \/
                    InMem.getKeyString (InMem.key_of it) <> key) l ->
  InMem.commit_loop l st !! key = st !! key.
Proof.
  induction l as [|it l IH]; intros st key Hl; simpl; [reflexivity|].
  apply Forall_cons in Hl. destruct Hl as [Hit Hl].
  rewrite IH by exact Hl. unfold InMem.Put.
  destruct (InMem.Marshal it) as [v|]; simpl; [|reflexivity].
  destruct Hit as [Hit|Hit]; [discriminate|].
  apply lookup_insert_ne. exact Hit.
Qed.

(** X21. [Commit] on a batch with a live context returns nil whatever its
    items are: an item that fails to marshal is passed over without a
    trace.  Afterwards the store holds, under the key string of an item that
    marshals, the bytes of the last such item of the batch with that key
    string; a key string that no item which marshals has is left as it
    was.  The items stay in the batch. *)
Theorem Batch_Commit_stores :
  forall (b : InMem.Batch),
    InMem.ctx_err b = None ->
    exists st',
      InMem.Batch_Commit b = InMem.Ok (InMem.mkBatch None (InMem.items b) st') /\
      (forall l1 it l2 v,
          InMem.items b = l1 ++ it :: l2 ->
          InMem.Marshal it = Some v ->
          Forall (fun it' => InMem.Marshal it' = None \/
                             InMem.getKeyString (InMem.key_of it')
                             <> InMem.getKeyString (InMem.key_of it)) l2 ->
          st' !! InMem.getKeyString (InMem.key_of it) = Some v) /\
      (forall key,
          Forall (fun it => InMem.Marshal it = None \/
                            InMem.getKeyString (InMem.key_of it) <> key) (InMem.items b) ->
          st' !! key = InMem.store_of b !! key).
Proof.
  intros b Hctx. unfold InMem.Batch_Commit. rewrite Hctx.
  eexists. split; [reflexivity|]. split.
  - intros l1 it l2 v Hitems Hm Hlater. rewrite Hitems, commit_loop_app. simpl.
    rewrite commit_loop_other by exact Hlater.
    unfold InMem.Put. rewrite Hm. simpl. apply lookup_insert_eq.
  - intros key Hno. apply commit_loop_other. exact Hno.
Qed.

Lemma Batch_Commit_stores_witness :
  exists st',
    InMem.Batch_Commit (InMem.mkBatch None [InMem.chunk_a; InMem.broken_c] ∅)
    = InMem.Ok (InMem.mkBatch None [InMem.chunk_a; InMem.broken_c] st') /\
    st' !! "chunk/a" = Some [1; 2; 3] /\
    st' !! "chunk/c" = (∅ : InMem.Store) !! "chunk/c".
Proof.
  destruct (Batch_Commit_stores
              (InMem.mkBatch None [InMem.chunk_a; InMem.broken_c] ∅) eq_refl)
    as (st' & Hc & Hlast & Hother).
  exists st'. split; [exact Hc|]. split.
  - apply (Hlast [] InMem.chunk_a [InMem.broken_c] [1; 2; 3]); try reflexivity.
    repeat constructor.
  - apply (Hother "chunk/c").
    constructor; [right; discriminate | constructor; [left; reflexivity | constructor]].
Defined.

(** X22. On a batch with a live context, [Put] of an item that marshals
    followed by [Commit] leaves the bytes of that item in the store under its
    key string, whatever the batch held before: the item put last wins.  On a
    batch whose context is done, [Put], [Delete] and [Commit] return the
    error of the context and do nothing else. *)
Theorem Batch_Put_then_Commit :
  forall (b : InMem.Batch) (it : InMem.Item),
    (forall v,
        InMem.ctx_err b = None -> InMem.Marshal it = Some v ->
        exists b1 b2,
          InMem.Batch_Put it b = InMem.Ok b1 /\
          InMem.items b1 = InMem.items b ++ [it] /\
          InMem.Batch_Commit b1 = InMem.Ok b2 /\
          InMem.store_of b2 !! InMem.getKeyString (InMem.key_of it) = Some v) /\
    (forall e k,
        InMem.ctx_err b = Some e ->
        InMem.Batch_Put it b = InMem.Failed e /\
        InMem.Batch_Delete k b = InMem.Failed e /\
        InMem.Batch_Commit b = InMem.Failed e).
Proof.
  intros b it. split.
  - intros v Hctx Hm. unfold InMem.Batch_Put. rewrite Hctx.
    eexists. eexists. split; [reflexivity|]. simpl. split; [reflexivity|].
    unfold InMem.Batch_Commit. simpl. split; [reflexivity|]. simpl.
    rewrite commit_loop_app. simpl. unfold InMem.Put. rewrite Hm. simpl.
    apply lookup_insert_eq.
  - intros e k Hctx.
    unfold InMem.Batch_Put, InMem.Batch_Delete, InMem.Batch_Commit.
    rewrite Hctx. repeat split.
Qed.

Lemma Batch_Put_then_Commit_witness :
  (exists b1 b2,
      InMem.Batch_Put InMem.chunk_b (InMem.mkBatch None [InMem.chunk_a] ∅) = InMem.Ok b1 /\
      InMem.items b1 = [InMem.chunk_a] ++ [InMem.chunk_b] /\
      InMem.Batch_Commit b1 = InMem.Ok b2 /\
      InMem.store_of b2 !! InMem.getKeyString (InMem.key_of InMem.chunk_b) = Some [4]) /\
  (InMem.Batch_Put InMem.chunk_b (InMem.mkBatch (Some InMem.ErrContext) [InMem.chunk_a] ∅)
   = InMem.Failed InMem.ErrContext /\
   InMem.Batch_Delete (InMem.key_of InMem.chunk_a)
     (InMem.mkBatch (Some InMem.ErrContext) [InMem.chunk_a] ∅)
   = InMem.Failed InMem.ErrContext /\
   InMem.Batch_Commit (InMem.mkBatch (Some InMem.ErrContext) [InMem.chunk_a] ∅)
   = InMem.Failed InMem.ErrContext).
Proof.
  split.
  - apply (proj1 (Batch_Put_then_Commit (InMem.mkBatch None [InMem.chunk_a] ∅)
                                        InMem.chunk_b) [4]); reflexivity.
  - apply (proj2 (Batch_Put_then_Commit
                    (InMem.mkBatch (Some InMem.ErrContext) [InMem.chunk_a] ∅)
                    InMem.chunk_b) InMem.ErrContext (InMem.key_of InMem.chunk_a)).
    reflexivity.
Defined.
